(** * A shallow embedding of [pkg/tdigest/tdigest.go]

    The digest keeps a slice of centroids ordered by mean.  Every number in
    the Go source that is a [float64] is a value of an abstract carrier [F]
    with the operations the source applies to it ([Float64]); the code is
    written once over that interface and read at two instances:

    - [B64]: IEEE-754 binary64, round to nearest even, as specified by the
      standard library's [SpecFloat] with [prec = 53] and [emax = 1024].
      This is the program.  (Go allows a target to fuse [x*y + z]; the one
      such expression is the result of [Quantile], and wherever a result of
      [Quantile] is computed below, every operation on the way is exact.)
    - [Exact]: the rationals, i.e. the same code without rounding, overflow
      or NaN.  It is used to say what holds of the algorithm up to rounding.

    Go's [int] is modelled by [Z]: the only arithmetic on it is
    [nCentroids++], [nCentroids*3/8], [nCentroids*5/8 + 1] and index
    arithmetic bounded by the slice length, which cannot leave 64 bits for
    a slice that fits in memory.  A run-time panic (index or slice bound
    out of range) is [None]. *)

From Stdlib Require Import ZArith List Bool Lia QArith Lqa.
From Stdlib Require Import Floats.SpecFloat.
From stdpp Require Import base option list.

Local Open Scope Z_scope.

(** ** The arithmetic the source uses on [float64] *)

Class Float64 (F : Type) := {
  fadd : F -> F -> F;          (* x + y *)
  fsub : F -> F -> F;          (* x - y *)
  fmul : F -> F -> F;          (* x * y *)
  fdiv : F -> F -> F;          (* x / y *)
  flt : F -> F -> bool;        (* x < y *)
  fle : F -> F -> bool;        (* x <= y *)
  feq : F -> F -> bool;        (* x == y *)
  of_int : Z -> F;             (* float64(n), and the untyped constants *)
  fnan : F                     (* math.NaN() *)
}.

(** [x > y] and [x >= y] are the mirrored comparisons. *)
Definition fgt {F} `{Float64 F} (x y : F) : bool := flt y x.
Definition fge {F} `{Float64 F} (x y : F) : bool := fle y x.

(** [math.IsNaN(f)] is [f != f]. *)
Definition IsNaN {F} `{Float64 F} (f : F) : bool := negb (feq f f).

(** ** Slices *)

(** [s[i]]: panics unless [0 <= i < len(s)]. *)
Definition index {A} (s : list A) (i : Z) : option A :=
  if i <? 0 then None else s !! Z.to_nat i.

(** [s[i:]]: panics unless [0 <= i <= len(s)]. *)
Definition slice_from {A} (s : list A) (i : Z) : option (list A) :=
  if (i <? 0) || (Z.of_nat (length s) <? i) then None
  else Some (drop (Z.to_nat i) s).

(** [s[:i]] for [i] within the length.  (Go admits [i] up to the capacity;
    the one use, in [quantileOf], indexes [s[i]] right after the loop, which
    panics for every [i >= len(s)].) *)
Definition slice_to {A} (s : list A) (i : Z) : option (list A) :=
  if (i <? 0) || (Z.of_nat (length s) <? i) then None
  else Some (take (Z.to_nat i) s).

(** [*p = x] for the pointer stored at [s[i]]. *)
Definition store {A} (s : list A) (i : Z) (x : A) : list A :=
  <[Z.to_nat i := x]> s.

(** The outcome of a loop that is run on a measure. *)
Inductive outcome (A : Type) : Type :=
  | Ok (a : A)
  | Panic
  | OutOfFuel.
Arguments Ok {A} a.
Arguments Panic {A}.
Arguments OutOfFuel {A}.

(** How the binary-search loop of [nearest] is left: by [return], or by
    its condition becoming false. *)
Inductive loop_exit : Type :=
  | Return (i : Z)
  | Fallthrough (left right : Z).

Definition binarySearchThreshold : Z := 32.

(** Where [add] puts a value: into the centroid at an index, or into a new
    centroid at an index. *)
Inductive placement : Type :=
  | Absorb (i : Z)
  | Insert (i : Z).

(** The sum of a list of integer weights. *)
Definition total (ks : list Z) : Z := foldr Z.add 0 ks.

Section Digest.
Context {F : Type} `{Float64 F}.

(** [type centroid struct]; [c_nCentroids] is the field [nCentroids]. *)
Record centroid := Centroid {
  mean : F;
  count : F;
  maxCount : F;
  c_nCentroids : Z
}.

(** [type TDigest struct]; [d_count] is the field [count].  The slice
    holds pointers; every pointer is stored in exactly one slot (each is
    allocated by [addCentroid]), so a slot stands for its centroid. *)
Record TDigest := Digest {
  centroids : list centroid;
  compression : F;
  d_count : F;
  nCentroids : Z;
  p5Centroid : Z;
  p95Centroid : Z;
  appendLower : bool
}.

Definition set_centroids (d : TDigest) (cs : list centroid) : TDigest :=
  Digest cs (compression d) (d_count d) (nCentroids d)
         (p5Centroid d) (p95Centroid d) (appendLower d).

(** [func (c *centroid) inc(val float64)] *)
Definition inc (c : centroid) (val : F) : centroid :=
  let cnt := fadd (count c) (of_int 1) in
  Centroid (fadd (mean c) (fdiv (fsub val (mean c)) cnt))
           cnt (maxCount c) (c_nCentroids c).

(** [func New(compression float64) *TDigest] *)
Definition New (compression : F) : TDigest :=
  Digest [] compression (of_int 0) 0 0 0 false.

(** The binary-search loop of [nearest], on the measure [right - left]. *)
Fixpoint bsearch (fuel : nat) (cs : list centroid) (val : F)
         (left right : Z) : outcome loop_exit :=
  let diff := right - left in
  if binarySearchThreshold <? diff then
    match fuel with
    | O => OutOfFuel
    | S fuel =>
      let middle := left + Z.quot diff 2 in
      match index cs middle with
      | None => Panic
      | Some cm =>
        if flt (mean cm) val then
          match index cs (middle + 1) with
          | None => Panic
          | Some cm1 =>
            if flt val (mean cm1) then Ok (Return middle)
            else bsearch fuel cs val (middle + 1) right
          end
        else
          match index cs (middle - 1) with
          | None => Panic
          | Some cm0 =>
            if flt (mean cm0) val then Ok (Return (middle - 1))
            else bsearch fuel cs val left middle
          end
      end
    end
  else Ok (Fallthrough left right).

(** The linear scan [for i, c := range d.centroids[left+1:]] of
    [nearest]; [i] is the loop index. *)
Fixpoint scan (tl : list centroid) (val : F) (left right i : Z) : Z :=
  match tl with
  | [] => right - 1
  | c :: tl => if flt val (mean c) then left + i
               else scan tl val left right (i + 1)
  end.

(** [func (d *TDigest) nearest(val float64) int]; [lo] and [hi] are the
    source's [left] and [right]. *)
Definition nearest (d : TDigest) (val : F) : option Z :=
  c5 ← index (centroids d) (p5Centroid d);
  '(lo, hi) ←
    (if flt (mean c5) val then
       c95 ← index (centroids d) (p95Centroid d);
       Some (p5Centroid d,
             if flt val (mean c95) then p95Centroid d + 1 else nCentroids d)
     else Some (0, p5Centroid d));
  match bsearch (Z.to_nat (hi - lo)) (centroids d) val lo hi with
  | Ok (Return i) => Some i
  | Ok (Fallthrough lo hi) =>
    tl ← slice_from (centroids d) (lo + 1);
    Some (scan tl val lo hi 0)
  | Panic | OutOfFuel => None
  end.

(** [var total float64; for _, c := range s { total += c.count }] *)
Definition sum_counts (s : list centroid) : F :=
  fold_left (fun total c => fadd total (count c)) s (of_int 0).

(** [func (d *TDigest) quantileOf(idx int) float64] *)
Definition quantileOf (d : TDigest) (idx : Z) : option F :=
  if Z.quot (nCentroids d) 2 <? idx then
    tl ← slice_from (centroids d) (idx + 1);
    c ← index (centroids d) idx;
    Some (fsub (of_int 1)
               (fdiv (fadd (fdiv (count c) (of_int 2)) (sum_counts tl))
                     (d_count d)))
  else
    hd ← slice_to (centroids d) idx;
    c ← index (centroids d) idx;
    Some (fdiv (fadd (fdiv (count c) (of_int 2)) (sum_counts hd))
               (d_count d)).

(** The capacity assigned by [hasRoom]:
    [4 * d.compression * ptile * (1 - ptile) * float64(d.nCentroids)]. *)
Definition capacity (d : TDigest) (ptile : F) : F :=
  fmul (fmul (fmul (fmul (of_int 4) (compression d)) ptile)
             (fsub (of_int 1) ptile))
       (of_int (nCentroids d)).

(** [func (d *TDigest) hasRoom(idx int, c *centroid) bool]; at both call
    sites [c] is [d.centroids[idx]].  The result carries the digest with
    the centroid's two cache fields rewritten. *)
Definition hasRoom (d : TDigest) (idx : Z) : option (TDigest * bool) :=
  ptile ← quantileOf d idx;
  c ← index (centroids d) idx;
  let c' := Centroid (mean c) (count c) (capacity d ptile) (nCentroids d) in
  Some (set_centroids d (store (centroids d) idx c'),
        flt (count c') (maxCount c')).

(** [(c.count < c.maxCount) ||
     (c.nCentroids != d.nCentroids && d.hasRoom(idx, c))]
    for [c := d.centroids[idx]], with Go's short-circuit evaluation. *)
Definition roomAt (d : TDigest) (idx : Z) : option (TDigest * bool) :=
  c ← index (centroids d) idx;
  if flt (count c) (maxCount c) then Some (d, true)
  else if negb (c_nCentroids c =? nCentroids d) then hasRoom d idx
  else Some (d, false).

(** [func (d *TDigest) addCentroid(idx int, mean float64)] *)
Definition addCentroid (d : TDigest) (idx : Z) (mean : F) : option TDigest :=
  let n := nCentroids d + 1 in
  let len := Z.of_nat (length (centroids d)) in
  if (idx <? 0) || (len <? idx) then None
  else
    let cs := take (Z.to_nat idx) (centroids d)
              ++ Centroid mean (of_int 1) (of_int 0) 0
                 :: drop (Z.to_nat idx) (centroids d) in
    if 3 <=? n then
      Some (Digest cs (compression d) (d_count d) n
                   (Z.quot (n * 3) 8) (Z.quot (n * 5) 8 + 1)
                   (appendLower d))
    else
      Some (Digest cs (compression d) (d_count d) n
                   (p5Centroid d) (p95Centroid d) (appendLower d)).

(** [p.inc(val)] for the pointer [p := d.centroids[idx]]. *)
Definition incAt (d : TDigest) (idx : Z) (val : F) : option TDigest :=
  c ← index (centroids d) idx;
  Some (set_centroids d (store (centroids d) idx (inc c val))).

Definition flipAppendLower (d : TDigest) : TDigest :=
  Digest (centroids d) (compression d) (d_count d) (nCentroids d)
         (p5Centroid d) (p95Centroid d) (negb (appendLower d)).

(** The part of [add] after the [switch d.nCentroids]: at least two
    centroids. *)
Definition addSteady (d : TDigest) (val : F) : option TDigest :=
  leftIdx ← nearest d val;
  left ← index (centroids d) leftIdx;
  '(d1, leftHasRoom) ← roomAt d leftIdx;
  if flt val (mean left) then
    if leftHasRoom : bool then incAt d1 leftIdx val
    else addCentroid d1 0 val
  else if leftIdx =? Z.of_nat (length (centroids d1)) - 1 then
    if leftHasRoom then incAt d1 leftIdx val
    else addCentroid d1 (Z.of_nat (length (centroids d1))) val
  else
    right ← index (centroids d1) (leftIdx + 1);
    '(d2, rightHasRoom) ← roomAt d1 (leftIdx + 1);
    match leftHasRoom, rightHasRoom : bool with
    | true, true =>
      d3 ← (if appendLower d2 then incAt d2 leftIdx val
            else incAt d2 (leftIdx + 1) val);
      Some (flipAppendLower d3)
    | true, false => incAt d2 leftIdx val
    | false, true => incAt d2 (leftIdx + 1) val
    | false, false => addCentroid d2 (leftIdx + 1) val
    end.

(** [func (d *TDigest) add(val float64)] *)
Definition add (d : TDigest) (val : F) : option TDigest :=
  if nCentroids d =? 0 then addCentroid d 0 val
  else if nCentroids d =? 1 then
    centroid ← index (centroids d) 0;
    if flt (count centroid) (compression d) then incAt d 0 val
    else if flt val (mean centroid) then addCentroid d 0 val
    else addCentroid d 1 val
  else addSteady d val.

(** [func (d *TDigest) Add(val float64)] *)
Definition Add (d : TDigest) (val : F) : option TDigest :=
  d' ← add d val;
  Some (Digest (centroids d') (compression d')
               (fadd (d_count d') (of_int 1)) (nCentroids d')
               (p5Centroid d') (p95Centroid d') (appendLower d')).

(** A sequence of [Add] calls, stopping at the first panic. *)
Fixpoint AddAll (d : TDigest) (vals : list F) : option TDigest :=
  match vals with
  | [] => Some d
  | v :: vals => d' ← Add d v; AddAll d' vals
  end.

(** The loop of [Quantile]: returns [(qTotal, idx)] as the loop leaves
    them; [i] is the loop index and [idx] the value assigned so far. *)
Fixpoint walk (cs : list centroid) (q qTotal : F) (i idx : Z) : F * Z :=
  match cs with
  | [] => (qTotal, idx)
  | c :: cs =>
    if fge (fadd qTotal (fdiv (count c) (of_int 2))) q then (qTotal, i)
    else walk cs q (fadd qTotal (count c)) (i + 1) i
  end.

(** [slope := 2 * (c1.mean - c0.mean) / (c1.count + c0.count)] *)
Definition slope (c0 c1 : centroid) : F :=
  fdiv (fmul (of_int 2) (fsub (mean c1) (mean c0)))
       (fadd (count c1) (count c0)).

(** [func (d *TDigest) Quantile(q float64) float64] *)
Definition Quantile (d : TDigest) (q : F) : option F :=
  let n := Z.of_nat (length (centroids d)) in
  if n =? 0 then Some fnan
  else if n =? 1 then c ← index (centroids d) 0; Some (mean c)
  else
    let q := if flt q (of_int 0) then of_int 0
             else if fgt q (of_int 1) then of_int 1 else q in
    let q := fmul (d_count d) q in
    let '(qTotal, idx) := walk (centroids d) q (of_int 0) 0 0 in
    if idx =? 0 then
      c0 ← index (centroids d) 0;
      c1 ← index (centroids d) 1;
      let deltaQ := fsub q (fdiv (count c0) (of_int 2)) in
      Some (fadd (mean c0) (fmul (slope c0 c1) deltaQ))
    else if idx =? n - 1 then
      c0 ← index (centroids d) (n - 2);
      c1 ← index (centroids d) (n - 1);
      let deltaQ := fsub q (fsub qTotal (fdiv (count c1) (of_int 2))) in
      Some (fadd (mean c1) (fmul (slope c0 c1) deltaQ))
    else
      c0 ← index (centroids d) (idx - 1);
      c1 ← index (centroids d) idx;
      let deltaQ := fsub q (fadd (fdiv (count c1) (of_int 2)) qTotal) in
      Some (fadd (mean c1) (fmul (slope c0 c1) deltaQ)).

(** *** Notions for the statements *)

(** What a centroid summarises, its mean and its weight, as opposed to
    the two cache fields of the capacity policy. *)
Definition summary (c : centroid) : F * F := (mean c, count c).

Definition summaries (d : TDigest) : list (F * F) :=
  summary <$> centroids d.

(** [d'] is [d] after the centroid at [i] has absorbed [val]. *)
Definition absorbed (d d' : TDigest) (i : Z) (val : F) : Prop :=
  exists c, index (centroids d) i = Some c /\
            summaries d' = store (summaries d) i (summary (inc c val)).

(** [d'] is [d] with a new centroid of weight 1 and mean [val] at
    position [i]. *)
Definition inserted (d d' : TDigest) (i : Z) (val : F) : Prop :=
  0 <= i <= Z.of_nat (length (centroids d)) /\
  summaries d' = take (Z.to_nat i) (summaries d)
                 ++ (val, of_int 1) :: drop (Z.to_nat i) (summaries d).

(** [d'] differs from [d] at most in the cache fields of its centroids. *)
Definition cache_equiv (d d' : TDigest) : Prop :=
  summaries d' = summaries d /\
  compression d' = compression d /\
  d_count d' = d_count d /\
  nCentroids d' = nCentroids d /\
  p5Centroid d' = p5Centroid d /\
  p95Centroid d' = p95Centroid d /\
  appendLower d' = appendLower d.

(** The weights of the centroids are the integers [ks], each at least 1. *)
Definition weights_are (d : TDigest) (ks : list Z) : Prop :=
  count <$> centroids d = of_int <$> ks /\ Forall (fun k => 1 <= k) ks.

(** ... and they add up to [N], which is also the digest's [count]. *)
Definition integer_weights (d : TDigest) (ks : list Z) (N : Z) : Prop :=
  weights_are d ks /\ total ks = N /\ d_count d = of_int N.

(** [addCentroid] was not called: the cached indices are as before. *)
Definition hints_kept (d d' : TDigest) : Prop :=
  nCentroids d' = nCentroids d /\
  p5Centroid d' = p5Centroid d /\ p95Centroid d' = p95Centroid d.

(** [addCentroid] was called once. *)
Definition hints_moved (d d' : TDigest) : Prop :=
  nCentroids d' = nCentroids d + 1 /\
  if 3 <=? nCentroids d + 1
  then p5Centroid d' = Z.quot ((nCentroids d + 1) * 3) 8 /\
       p95Centroid d' = Z.quot ((nCentroids d + 1) * 5) 8 + 1
  else p5Centroid d' = p5Centroid d /\ p95Centroid d' = p95Centroid d.

(** [d'] is [d] after the placement [p] of [val]: besides the store and
    the cached indices only cache fields and [appendLower] may differ. *)
Definition placed (d d' : TDigest) (val : F) (p : placement) : Prop :=
  d_count d' = d_count d /\ compression d' = compression d /\
  match p with
  | Absorb i => absorbed d d' i val /\ hints_kept d d'
  | Insert i => inserted d d' i val /\ hints_moved d d'
  end.

(** The placements the control flow of [add] can choose from. *)
Definition allowed (d : TDigest) (val : F) (p : placement) : Prop :=
  if nCentroids d =? 0 then p = Insert 0
  else if nCentroids d =? 1 then
    match index (centroids d) 0 with
    | Some c =>
      if flt (count c) (compression d) then p = Absorb 0
      else if flt val (mean c) then p = Insert 0 else p = Insert 1
    | None => False
    end
  else
    match nearest d val with
    | Some leftIdx =>
      match index (centroids d) leftIdx with
      | Some l =>
        if flt val (mean l) then p = Absorb leftIdx \/ p = Insert 0
        else if leftIdx =? Z.of_nat (length (centroids d)) - 1
             then p = Absorb leftIdx \/
                  p = Insert (Z.of_nat (length (centroids d)))
             else p = Absorb leftIdx \/ p = Absorb (leftIdx + 1) \/
                  p = Insert (leftIdx + 1)
      | None => False
      end
    | None => False
    end.

(** The store is ordered: each mean is [<=] the next one. *)
Definition sorted_means (d : TDigest) : Prop :=
  forall i c0 c1,
    index (centroids d) i = Some c0 ->
    index (centroids d) (i + 1) = Some c1 ->
    fle (mean c0) (mean c1) = true.

(** The invariant of the digest between calls: the cached length and the
    cached indices are what [addCentroid] makes them, the store is ordered,
    and every centroid has weight at least 1. *)
Definition well_formed (d : TDigest) : Prop :=
  nCentroids d = Z.of_nat (length (centroids d)) /\
  (if 3 <=? nCentroids d
   then p5Centroid d = Z.quot (nCentroids d * 3) 8 /\
        p95Centroid d = Z.quot (nCentroids d * 5) 8 + 1
   else p5Centroid d = 0 /\ p95Centroid d = 0) /\
  sorted_means d /\
  Forall (fun c => fle (of_int 1) (count c) = true) (centroids d).

(** Following the specification (4.1): the estimated quantile position of
    the centroid at [idx] is (half its own weight + the weight of all
    centroids strictly before it) / totalCount. *)
Definition spec_position (d : TDigest) (idx : Z) : option F :=
  c ← index (centroids d) idx;
  Some (fdiv (fadd (fdiv (count c) (of_int 2))
                   (sum_counts (take (Z.to_nat idx) (centroids d))))
             (d_count d)).

(** Following the specification (4.1): the capacity is
    [4 * compression * q * (1 - q) * centroidCount] at that position [q]. *)
Definition spec_capacity (d : TDigest) (idx : Z) : option F :=
  q ← spec_position d idx;
  Some (capacity d q).

End Digest.

Arguments centroid F : clear implicits.
Arguments TDigest F : clear implicits.

(** ** The program: IEEE-754 binary64 *)

Module B64.

Definition prec : Z := 53.
Definition emax : Z := 1024.

(** The float nearest to [m * 2^e]. *)
Definition ldexp (m e : Z) : spec_float := binary_normalize prec emax m e false.

#[export] Instance float64 : Float64 spec_float := {
  fadd := SFadd prec emax;
  fsub := SFsub prec emax;
  fmul := SFmul prec emax;
  fdiv := SFdiv prec emax;
  flt := SFltb;
  fle := SFleb;
  feq := SFeqb;
  of_int := fun n => ldexp n 0;
  fnan := S754_nan
}.

(** The integer a float denotes, when it denotes one. *)
Definition to_int (x : spec_float) : option Z :=
  match x with
  | S754_zero _ => Some 0
  | S754_finite s m e =>
    if 0 <=? e then Some (cond_Zopp s (Z.pos m * 2 ^ e))
    else if Z.pos m mod 2 ^ (- e) =? 0
         then Some (cond_Zopp s (Z.pos m / 2 ^ (- e)))
         else None
  | S754_infinity _ | S754_nan => None
  end.

(** The digest [New(2^60)] after [k] calls [Add(0)], as long as [count++]
    is exact: one centroid of mean 0 that has absorbed every value. *)
Definition lone (k : Z) : TDigest spec_float :=
  Digest [Centroid (ldexp 0 0) (ldexp k 0) (ldexp 0 0) 0]
         (ldexp 1 60) (ldexp k 0) 1 0 0 false.

End B64.

(** ** The algorithm without rounding: rationals *)

(** There is no NaN among the rationals: [fnan], which the code returns
    only from [Quantile] on an empty digest, is an arbitrary number here,
    and division by 0, which the code does not reach on a digest built by
    [Add] calls, is 0. *)
Module Exact.

#[export] Instance rational : Float64 Q := {
  fadd := Qplus;
  fsub := Qminus;
  fmul := Qmult;
  fdiv := Qdiv;
  flt := fun x y => negb (Qle_bool y x);
  fle := Qle_bool;
  feq := Qeq_bool;
  of_int := inject_Z;
  fnan := 0%Q
}.

(** A list of rationals in non-decreasing order. *)
Definition ordered (ms : list Q) : Prop :=
  forall i a b, ms !! i = Some a -> ms !! S i = Some b -> (a <= b)%Q.

(** The mean at index [i], if there is one, is at most / at least [v]. *)
Definition le_at (d : TDigest Q) (i : Z) (v : Q) : Prop :=
  forall c, index (centroids d) i = Some c -> (mean c <= v)%Q.

Definition ge_at (d : TDigest Q) (i : Z) (v : Q) : Prop :=
  forall c, index (centroids d) i = Some c -> (v <= mean c)%Q.

(** What [nearest] is documented to return: an index [i] such that [val]
    lies between the means at [i] and [i + 1]; at the two ends, [val] may
    lie outside. *)
Definition brackets (d : TDigest Q) (val : Q) (i : Z) : Prop :=
  0 <= i < Z.of_nat (length (centroids d)) /\
  (0 < i -> le_at d i val) /\ ge_at d (i + 1) val.

(** The invariant of the search window [left, right] of [nearest]. *)
Definition window (d : TDigest Q) (val : Q) (lo hi : Z) : Prop :=
  0 <= lo /\ hi <= Z.of_nat (length (centroids d)) /\
  (lo < hi \/ (lo = 0 /\ hi = 0 /\ length (centroids d) = 2%nat)) /\
  (0 < lo -> le_at d lo val) /\ ge_at d hi val.

(** A placement that keeps the store ordered. *)
Definition safe (d : TDigest Q) (val : Q) (p : placement) : Prop :=
  match p with
  | Absorb i =>
    exists c, index (centroids d) i = Some c /\
      (((mean c <= val)%Q /\ ge_at d (i + 1) val) \/
       ((val <= mean c)%Q /\ le_at d (i - 1) val))
  | Insert i =>
    0 <= i <= Z.of_nat (length (centroids d)) /\
    le_at d (i - 1) val /\ ge_at d i val
  end.

(** The one state in which [Add(val)] panics: two centroids, both with
    mean [val]. *)
Definition degenerate (d : TDigest Q) (val : Q) : Prop :=
  length (centroids d) = 2%nat /\
  Forall (fun c => (mean c == val)%Q) (centroids d).

End Exact.

(** * Facts about the embedding *)

(** ** Slices *)

Section SliceFacts.
Context {A : Type}.
Implicit Types (s : list A) (i j : Z).

Lemma index_Some s i x :
  index s i = Some x ->
  0 <= i < Z.of_nat (length s) /\ s !! Z.to_nat i = Some x.
Proof.
  unfold index. destruct (Z.ltb_spec i 0); [discriminate|].
  intros Hx. split; [|done]. apply lookup_lt_Some in Hx. lia.
Qed.

Lemma index_in_range s i :
  0 <= i < Z.of_nat (length s) -> exists x, index s i = Some x.
Proof.
  intros Hi. unfold index. destruct (Z.ltb_spec i 0); [lia|].
  destruct (lookup_lt_is_Some_2 s (Z.to_nat i)) as [x Hx]; [lia|]. eauto.
Qed.

Lemma index_None s i :
  index s i = None -> i < 0 \/ Z.of_nat (length s) <= i.
Proof.
  unfold index. destruct (Z.ltb_spec i 0); [lia|].
  intros Hx%lookup_ge_None. lia.
Qed.

Lemma index_store_eq s i x y :
  index s i = Some y -> index (store s i x) i = Some x.
Proof.
  intros [Hi Hy]%index_Some. unfold index, store.
  destruct (Z.ltb_spec i 0); [lia|].
  apply list_lookup_insert_eq. lia.
Qed.

Lemma index_store_ne s i j x :
  0 <= i -> i <> j -> index (store s i x) j = index s j.
Proof.
  intros Hi Hij. unfold index, store.
  destruct (Z.ltb_spec j 0); [done|].
  apply list_lookup_insert_ne. lia.
Qed.

Lemma length_store s i x : length (store s i x) = length s.
Proof. apply length_insert. Qed.

Lemma index_fmap {B} (f : A -> B) s i : index (f <$> s) i = f <$> index s i.
Proof. unfold index. destruct (i <? 0); [done|]. apply list_lookup_fmap. Qed.

Lemma fmap_store {B} (f : A -> B) s i x :
  f <$> store s i x = store (f <$> s) i (f x).
Proof. apply list_fmap_insert. Qed.
End SliceFacts.

Section DigestFacts.
Context {F : Type} `{Float64 F}.
Implicit Types (d : TDigest F) (c : centroid F) (val : F).

Lemma cache_equiv_refl d : cache_equiv d d.
Proof. by repeat split. Qed.

Lemma cache_equiv_trans d1 d2 d3 :
  cache_equiv d1 d2 -> cache_equiv d2 d3 -> cache_equiv d1 d3.
Proof.
  intros (?&?&?&?&?&?&?) (?&?&?&?&?&?&?). repeat split; congruence.
Qed.

Lemma cache_equiv_length d d' :
  cache_equiv d d' -> length (centroids d') = length (centroids d).
Proof.
  intros [Hs _]. unfold summaries in Hs.
  by rewrite <- (length_fmap summary (centroids d')), Hs, length_fmap.
Qed.

Lemma cache_equiv_index d d' i c :
  cache_equiv d d' -> index (centroids d) i = Some c ->
  exists c', index (centroids d') i = Some c' /\ summary c' = summary c.
Proof.
  intros [Hs _] Hc. unfold summaries in Hs.
  assert (Hi : index (summary <$> centroids d') i = Some (summary c)).
  { rewrite Hs, index_fmap, Hc. reflexivity. }
  rewrite index_fmap in Hi.
  destruct (index (centroids d') i) as [c'|]; [|done].
  exists c'. split; [done|]. simpl in Hi. congruence.
Qed.

Lemma cache_equiv_store d i c c' :
  index (centroids d) i = Some c -> summary c' = summary c ->
  cache_equiv d (set_centroids d (store (centroids d) i c')).
Proof.
  intros [Hi Hc]%index_Some Hs. repeat split; simpl.
  unfold summaries; simpl. rewrite fmap_store, Hs.
  unfold store. apply list_insert_id. by rewrite list_lookup_fmap, Hc.
Qed.

Lemma sum_counts_fold (s : list (centroid F)) (a : F) :
  fold_left (fun total c => fadd total (count c)) s a
  = fold_left (fun total (p : F * F) => fadd total p.2) (summary <$> s) a.
Proof. revert a. induction s as [|c s IH]; intros a; simpl; [done|apply IH]. Qed.

Lemma sum_counts_summary (s s' : list (centroid F)) :
  summary <$> s = summary <$> s' -> sum_counts s = sum_counts s'.
Proof. intros Hs. unfold sum_counts. by rewrite !sum_counts_fold, Hs. Qed.

Lemma quantileOf_cache_equiv d d' idx :
  cache_equiv d d' -> quantileOf d' idx = quantileOf d idx.
Proof.
  intros Heq. pose proof (cache_equiv_length _ _ Heq) as Hlen.
  pose proof Heq as (Hs & _ & Hc & Hn & _). unfold summaries in Hs.
  unfold quantileOf, slice_from, slice_to. rewrite Hn, Hlen, Hc.
  assert (Hidx : index (centroids d') idx ≫= (fun c => Some (count c))
                 = index (centroids d) idx ≫= (fun c => Some (count c))).
  { destruct (index (centroids d) idx) as [c|] eqn:Hi.
    - destruct (cache_equiv_index _ _ _ _ Heq Hi) as (c' & -> & Hsc).
      simpl. by injection Hsc as _ ->.
    - apply index_None in Hi. 
      destruct (index (centroids d') idx) as [c'|] eqn:Hi'; [|done].
      apply index_Some in Hi'. lia. }
  assert (Hdrop : forall n, sum_counts (drop n (centroids d'))
                            = sum_counts (drop n (centroids d)))
    by (intros n; apply sum_counts_summary; by rewrite !fmap_drop, Hs).
  assert (Htake : forall n, sum_counts (take n (centroids d'))
                            = sum_counts (take n (centroids d)))
    by (intros n; apply sum_counts_summary; by rewrite !fmap_take, Hs).
  destruct (_ <? idx); destruct (_ || _); simpl; try done;
    rewrite ?Hdrop, ?Htake;
    destruct (index (centroids d') idx), (index (centroids d) idx);
    simpl in *; congruence.
Qed.

Lemma hasRoom_spec d idx d' b :
  hasRoom d idx = Some (d', b) ->
  exists c q,
    index (centroids d) idx = Some c /\ quantileOf d idx = Some q /\
    d' = set_centroids d (store (centroids d) idx
           (Centroid (mean c) (count c) (capacity d q) (nCentroids d))) /\
    b = flt (count c) (capacity d q).
Proof.
  unfold hasRoom. destruct (quantileOf d idx) as [q|]; [|done]. simpl.
  destruct (index (centroids d) idx) as [c|]; [|done]. simpl.
  intros [= <- <-]. by exists c, q.
Qed.

Lemma quantileOf_total d idx c :
  index (centroids d) idx = Some c -> is_Some (quantileOf d idx).
Proof.
  intros Hc. pose proof Hc as [Hi _]%index_Some.
  unfold quantileOf, slice_from, slice_to. rewrite Hc.
  destruct (_ <? idx).
  - destruct (Z.ltb_spec (idx + 1) 0); [lia|].
    destruct (Z.ltb_spec (Z.of_nat (length (centroids d))) (idx + 1)); [lia|].
    by eexists.
  - destruct (Z.ltb_spec idx 0); [lia|].
    destruct (Z.ltb_spec (Z.of_nat (length (centroids d))) idx); [lia|].
    by eexists.
Qed.

Lemma hasRoom_total d idx c :
  index (centroids d) idx = Some c -> is_Some (hasRoom d idx).
Proof.
  intros Hc. destruct (quantileOf_total _ _ _ Hc) as [q Hq].
  unfold hasRoom. rewrite Hq, Hc. by eexists.
Qed.

Lemma roomAt_spec d idx d' b :
  roomAt d idx = Some (d', b) ->
  exists c, index (centroids d) idx = Some c /\
    ((d' = d /\ b = true /\ flt (count c) (maxCount c) = true) \/
     (d' = d /\ b = false /\ flt (count c) (maxCount c) = false /\
      c_nCentroids c = nCentroids d) \/
     (flt (count c) (maxCount c) = false /\
      c_nCentroids c <> nCentroids d /\ hasRoom d idx = Some (d', b))).
Proof.
  unfold roomAt. destruct (index (centroids d) idx) as [c|]; [|done]. simpl.
  intros Hr. exists c. split; [done|].
  destruct (flt (count c) (maxCount c)).
  - injection Hr as <- <-. by left.
  - right. destruct (Z.eqb_spec (c_nCentroids c) (nCentroids d)); simpl in Hr.
    + injection Hr as <- <-. by left.
    + by right.
Qed.

Lemma roomAt_total d idx c :
  index (centroids d) idx = Some c -> is_Some (roomAt d idx).
Proof.
  intros Hc. unfold roomAt. rewrite Hc. simpl.
  destruct (flt _ _); [by eexists|].
  destruct (negb _); [by eapply hasRoom_total|by eexists].
Qed.

Lemma hasRoom_cache_equiv d idx d' b :
  hasRoom d idx = Some (d', b) -> cache_equiv d d'.
Proof.
  intros (c & q & Hc & _ & -> & _)%hasRoom_spec.
  by eapply cache_equiv_store.
Qed.

Lemma roomAt_cache_equiv d idx d' b :
  roomAt d idx = Some (d', b) -> cache_equiv d d'.
Proof.
  intros (c & Hc & [(-> & _)|[(-> & _)|(_ & _ & Hr)]])%roomAt_spec;
    eauto using cache_equiv_refl, hasRoom_cache_equiv.
Qed.

(** The capacity check of one centroid does not depend on the cache
    fields of another. *)
Lemma roomAt_independent d i d1 b1 j :
  roomAt d i = Some (d1, b1) -> i <> j ->
  snd <$> roomAt d1 j = snd <$> roomAt d j.
Proof.
  intros Hr Hij. pose proof (roomAt_cache_equiv _ _ _ _ Hr) as Heq.
  assert (Hj : index (centroids d1) j = index (centroids d) j).
  { apply roomAt_spec in Hr as (c & Hc & [(-> & _)|[(-> & _)|(_ & _ & Hr)]]);
      try done.
    apply hasRoom_spec in Hr as (c' & q & _ & _ & -> & _). simpl.
    apply index_Some in Hc as [? _]. apply index_store_ne; lia. }
  pose proof Heq as (_ & Hcomp & _ & Hn & _).
  unfold roomAt, hasRoom. rewrite Hj, (quantileOf_cache_equiv _ _ _ Heq), Hn.
  destruct (index (centroids d) j) as [c|]; [simpl|done].
  destruct (flt _ _); [done|]. destruct (negb _); [|done].
  destruct (quantileOf d j) as [q|]; [simpl|done].
  unfold capacity. by rewrite Hcomp, Hn.
Qed.
End DigestFacts.

Section AddFacts.
Context {F : Type} `{Float64 F}.
Implicit Types (d : TDigest F) (c : centroid F) (val : F).

Lemma summary_inc c c' val :
  summary c' = summary c -> summary (inc c' val) = summary (inc c val).
Proof. unfold summary, inc. intros [= -> ->]. done. Qed.

Lemma incAt_cache_equiv d d2 i c val :
  cache_equiv d d2 -> index (centroids d) i = Some c ->
  exists d', incAt d2 i val = Some d' /\ absorbed d d' i val /\
             appendLower d' = appendLower d.
Proof.
  intros Heq Hc.
  destruct (cache_equiv_index _ _ _ _ Heq Hc) as (c' & Hc' & Hs).
  destruct Heq as (Hsum & _ & _ & _ & _ & _ & Hal).
  unfold incAt. rewrite Hc'. simpl. eexists. split; [done|]. split; [|done].
  exists c. split; [done|]. unfold summaries in *. simpl.
  by rewrite fmap_store, Hsum, (summary_inc _ _ _ Hs).
Qed.

Lemma addCentroid_cache_equiv d d2 i val :
  cache_equiv d d2 -> 0 <= i <= Z.of_nat (length (centroids d)) ->
  exists d', addCentroid d2 i val = Some d' /\ inserted d d' i val /\
             appendLower d' = appendLower d.
Proof.
  intros Heq Hi. pose proof (cache_equiv_length _ _ Heq) as Hlen.
  destruct Heq as (Hsum & _ & _ & _ & _ & _ & Hal).
  unfold addCentroid. rewrite Hlen.
  destruct (Z.ltb_spec i 0); [lia|].
  destruct (Z.ltb_spec (Z.of_nat (length (centroids d))) i); [lia|]. simpl.
  assert (Hins : summary <$> (take (Z.to_nat i) (centroids d2)
                   ++ Centroid val (of_int 1) (of_int 0) 0
                      :: drop (Z.to_nat i) (centroids d2))
                 = take (Z.to_nat i) (summaries d)
                   ++ (val, of_int 1) :: drop (Z.to_nat i) (summaries d)).
  { rewrite fmap_app, fmap_cons, fmap_take, fmap_drop.
    unfold summaries in Hsum. by rewrite Hsum. }
  destruct (3 <=? _); eexists; (split; [done|]); by split.
Qed.

Lemma add_between d val leftIdx left right d1 lhr d2 rhr :
  nCentroids d <> 0 -> nCentroids d <> 1 ->
  nearest d val = Some leftIdx ->
  index (centroids d) leftIdx = Some left ->
  index (centroids d) (leftIdx + 1) = Some right ->
  flt val (mean left) = false ->
  roomAt d leftIdx = Some (d1, lhr) ->
  roomAt d (leftIdx + 1) = Some (d2, rhr) ->
  exists d', add d val = Some d' /\
    match lhr, rhr with
    | true, true =>
      absorbed d d' (if appendLower d then leftIdx else leftIdx + 1) val /\
      appendLower d' = negb (appendLower d)
    | true, false =>
      absorbed d d' leftIdx val /\ appendLower d' = appendLower d
    | false, true =>
      absorbed d d' (leftIdx + 1) val /\ appendLower d' = appendLower d
    | false, false =>
      inserted d d' (leftIdx + 1) val /\ appendLower d' = appendLower d
    end.
Proof.
  intros Hn0 Hn1 Hnear Hleft Hright Hlt Hl Hr.
  pose proof (roomAt_cache_equiv _ _ _ _ Hl) as Heq1.
  pose proof (cache_equiv_length _ _ Heq1) as Hlen1.
  destruct (cache_equiv_index _ _ _ _ Heq1 Hright) as (right1 & Hright1 & _).
  assert (exists d2', roomAt d1 (leftIdx + 1) = Some (d2', rhr)) as [d2' Hr1].
  { pose proof (roomAt_independent _ _ _ _ (leftIdx + 1) Hl) as Hind.
    rewrite Hr in Hind. destruct (roomAt_total _ _ _ Hright1) as [[d2' b] Hx].
    rewrite Hx in Hind. simpl in Hind. exists d2'.
    rewrite Hx. f_equal. f_equal. assert (Some b = Some rhr) by (apply Hind; lia).
    congruence. }
  pose proof (cache_equiv_trans _ _ _ Heq1 (roomAt_cache_equiv _ _ _ _ Hr1))
    as Heq2.
  pose proof Heq2 as (_ & _ & _ & _ & _ & _ & Hal).
  pose proof Hleft as [Hli _]%index_Some.
  pose proof Hright as [Hri _]%index_Some.
  unfold add.
  destruct (Z.eqb_spec (nCentroids d) 0); [done|].
  destruct (Z.eqb_spec (nCentroids d) 1); [done|].
  unfold addSteady. rewrite Hnear. simpl. rewrite Hleft. simpl.
  rewrite Hl. simpl. rewrite Hlt, Hlen1.
  destruct (Z.eqb_spec leftIdx (Z.of_nat (length (centroids d)) - 1)); [lia|].
  rewrite Hright1. simpl. rewrite Hr1. simpl.
  destruct lhr, rhr.
  - rewrite Hal.
    destruct (appendLower d) eqn:Hd;
      [destruct (incAt_cache_equiv _ _ _ _ val Heq2 Hleft) as (d' & -> & Ha & Hb)
      |destruct (incAt_cache_equiv _ _ _ _ val Heq2 Hright) as (d' & -> & Ha & Hb)];
      simpl; eexists; (split; [done|]); (split; [done|]); simpl;
      by rewrite Hb, Hd.
  - destruct (incAt_cache_equiv _ _ _ _ val Heq2 Hleft) as (d' & -> & Ha & Hb).
    by exists d'.
  - destruct (incAt_cache_equiv _ _ _ _ val Heq2 Hright) as (d' & -> & Ha & Hb).
    by exists d'.
  - destruct (addCentroid_cache_equiv _ _ (leftIdx + 1) val Heq2)
      as (d' & -> & Ha & Hb); [lia|]. by exists d'.
Qed.
End AddFacts.

(** ** The binary search of [nearest] terminates *)

Section Termination.
Context {F : Type} `{Float64 F}.

Lemma bsearch_fuel (cs : list (centroid F)) (val : F) :
  forall fuel left right,
    right - left <= Z.of_nat fuel ->
    bsearch fuel cs val left right <> OutOfFuel.
Proof.
  induction fuel as [|fuel IH]; intros left right Hm; simpl;
    destruct (Z.ltb_spec binarySearchThreshold (right - left)) as [Hd|Hd];
    try discriminate; unfold binarySearchThreshold in Hd; try lia.
  assert (Hq : 16 <= Z.quot (right - left) 2 <= right - left - 1).
  { rewrite Z.quot_div_nonneg by lia.
    split; [apply Z.div_le_lower_bound; lia|].
    assert (right - left = 2 * ((right - left) / 2) + (right - left) mod 2) by (apply Z.div_mod; lia).
    assert (0 <= (right - left) mod 2 < 2) by (apply Z.mod_pos_bound; lia).
    lia. }
  destruct (index cs _); [|discriminate].
  destruct (flt _ _).
  - destruct (index cs _); [|discriminate].
    destruct (flt _ _); [discriminate|]. apply IH. lia.
  - destruct (index cs _); [|discriminate].
    destruct (flt _ _); [discriminate|]. apply IH. lia.
Qed.

(** The measure handed to the loop by [nearest] is enough. *)
Corollary nearest_fuel (cs : list (centroid F)) (val : F) (lo hi : Z) :
  bsearch (Z.to_nat (hi - lo)) cs val lo hi <> OutOfFuel.
Proof. apply bsearch_fuel. lia. Qed.

End Termination.

(** ** What [add] does to the store *)

Section AddEffect.
Context {F : Type} `{Float64 F}.
Implicit Types (d : TDigest F) (c : centroid F) (val : F).

Lemma cache_equiv_sym d d' : cache_equiv d d' -> cache_equiv d' d.
Proof. intros (?&?&?&?&?&?&?). by repeat split. Qed.

(** One centroid that is not full absorbs the value. *)
Lemma Add_single_with_room d c val :
  nCentroids d = 1 -> centroids d = [c] ->
  flt (count c) (compression d) = true ->
  Add d val = Some (Digest [inc c val] (compression d)
                           (fadd (d_count d) (of_int 1)) 1
                           (p5Centroid d) (p95Centroid d) (appendLower d)).
Proof.
  intros Hn Hc Hroom. unfold Add, add, incAt. rewrite Hn, Hc. simpl.
  rewrite Hroom. simpl. by rewrite Hn.
Qed.

Lemma AddAll_app d (vs ws : list F) :
  AddAll d (vs ++ ws) = AddAll d vs ≫= fun d' => AddAll d' ws.
Proof.
  revert d. induction vs as [|v vs IH]; intros d; simpl; [done|].
  destruct (Add d v); simpl; [apply IH|done].
Qed.

Lemma cache_equiv_hints d d1 d' :
  cache_equiv d d1 -> hints_kept d1 d' -> hints_kept d d'.
Proof. intros (_&_&_&?&?&?&_) (?&?&?). repeat split; congruence. Qed.

Lemma cache_equiv_hints_moved d d1 d' :
  cache_equiv d d1 -> hints_moved d1 d' -> hints_moved d d'.
Proof.
  intros (_&_&_&Hn&H5&H95&_). unfold hints_moved. by rewrite Hn, H5, H95.
Qed.

Lemma incAt_placed d d2 i val d' :
  cache_equiv d d2 -> incAt d2 i val = Some d' -> placed d d' val (Absorb i).
Proof.
  intros Heq Hinc.
  assert (exists c2, index (centroids d2) i = Some c2) as [c2 Hc2].
  { unfold incAt in Hinc. destruct (index (centroids d2) i); [eauto|done]. }
  destruct (cache_equiv_index _ _ _ _ (cache_equiv_sym _ _ Heq) Hc2)
    as (c & Hc & _).
  destruct (incAt_cache_equiv _ _ _ _ val Heq Hc) as (d'' & Hd'' & Habs & _).
  rewrite Hinc in Hd''. injection Hd'' as <-.
  pose proof Heq as (_ & Hcomp & Hcnt & _).
  unfold incAt in Hinc. rewrite Hc2 in Hinc. injection Hinc as <-.
  split; [done|]. split; [done|]. split; [done|].
  by apply (cache_equiv_hints _ _ _ Heq).
Qed.

Lemma addCentroid_placed d d2 i val d' :
  cache_equiv d d2 -> addCentroid d2 i val = Some d' ->
  placed d d' val (Insert i).
Proof.
  intros Heq Hadd. pose proof (cache_equiv_length _ _ Heq) as Hlen.
  assert (Hi : 0 <= i <= Z.of_nat (length (centroids d))).
  { unfold addCentroid in Hadd. rewrite Hlen in Hadd.
    destruct (Z.ltb_spec i 0); [done|].
    destruct (Z.ltb_spec (Z.of_nat (length (centroids d))) i); [done|lia]. }
  destruct (addCentroid_cache_equiv _ _ _ val Heq Hi) as (d'' & Hd'' & Hins & _).
  rewrite Hadd in Hd''. injection Hd'' as <-.
  pose proof Heq as (_ & Hcomp & Hcnt & _).
  assert (Hframe : d_count d' = d_count d2 /\ compression d' = compression d2 /\
                   hints_moved d2 d').
  { unfold addCentroid, hints_moved in *.
    destruct (_ || _); [done|].
    destruct (3 <=? _); by injection Hadd as <-. }
  destruct Hframe as (Hc' & Hcomp' & Hmoved).
  split; [congruence|]. split; [congruence|]. split; [done|].
  by apply (cache_equiv_hints_moved _ _ _ Heq).
Qed.

Lemma placed_flip d d' val p :
  placed d d' val p -> placed d (flipAppendLower d') val p.
Proof. done. Qed.

(** Every call of [add] that returns has made one of the allowed
    placements. *)
Lemma add_placement d val d' :
  add d val = Some d' -> exists p, allowed d val p /\ placed d d' val p.
Proof.
  unfold add, allowed. pose proof (cache_equiv_refl d) as Hrefl.
  destruct (nCentroids d =? 0).
  { intros Hd'. exists (Insert 0). split; [done|].
    by apply (addCentroid_placed d d). }
  destruct (nCentroids d =? 1).
  { destruct (index (centroids d) 0) as [c|]; [simpl|done].
    destruct (flt (count c) _).
    - intros Hd'. exists (Absorb 0). split; [done|]. by apply (incAt_placed d d).
    - destruct (flt val _); intros Hd'; eexists;
        (split; [done|by apply (addCentroid_placed d d)]). }
  unfold addSteady.
  destruct (nearest d val) as [leftIdx|]; [simpl|done].
  destruct (index (centroids d) leftIdx) as [left|]; [simpl|done].
  destruct (roomAt d leftIdx) as [[d1 lhr]|] eqn:Hl; [simpl|done].
  pose proof (roomAt_cache_equiv _ _ _ _ Hl) as Heq1.
  rewrite (cache_equiv_length _ _ Heq1).
  destruct (flt val (mean left)).
  { destruct lhr; intros Hd'.
    - exists (Absorb leftIdx). eauto using incAt_placed.
    - exists (Insert 0). eauto using addCentroid_placed. }
  destruct (leftIdx =? _).
  { destruct lhr; intros Hd'.
    - exists (Absorb leftIdx). eauto using incAt_placed.
    - exists (Insert (Z.of_nat (length (centroids d)))).
      eauto using addCentroid_placed. }
  destruct (index (centroids d1) (leftIdx + 1)) as [right|]; [simpl|done].
  destruct (roomAt d1 (leftIdx + 1)) as [[d2 rhr]|] eqn:Hr; [simpl|done].
  pose proof (cache_equiv_trans _ _ _ Heq1 (roomAt_cache_equiv _ _ _ _ Hr))
    as Heq2.
  destruct lhr, rhr.
  - destruct (appendLower d2).
    + destruct (incAt d2 leftIdx val) as [d3|] eqn:Hi; [simpl|done].
      intros [= <-]. exists (Absorb leftIdx). split; [eauto|].
      apply placed_flip. eauto using incAt_placed.
    + destruct (incAt d2 (leftIdx + 1) val) as [d3|] eqn:Hi; [simpl|done].
      intros [= <-]. exists (Absorb (leftIdx + 1)). split; [eauto|].
      apply placed_flip. eauto using incAt_placed.
  - intros Hd'. exists (Absorb leftIdx). eauto using incAt_placed.
  - intros Hd'. exists (Absorb (leftIdx + 1)). eauto using incAt_placed.
  - intros Hd'. exists (Insert (leftIdx + 1)). eauto using addCentroid_placed.
Qed.

Lemma incAt_returns d i val c :
  index (centroids d) i = Some c -> is_Some (incAt d i val).
Proof. intros Hc. unfold incAt. rewrite Hc. by eexists. Qed.

Lemma addCentroid_returns d i val :
  0 <= i <= Z.of_nat (length (centroids d)) -> is_Some (addCentroid d i val).
Proof.
  intros Hi. unfold addCentroid.
  destruct (Z.ltb_spec i 0); [lia|].
  destruct (Z.ltb_spec (Z.of_nat (length (centroids d))) i); [lia|]. simpl.
  destruct (3 <=? _); by eexists.
Qed.

(** [add] returns whenever the locator returns an index of the store. *)
Lemma addSteady_returns d val i :
  nearest d val = Some i -> 0 <= i < Z.of_nat (length (centroids d)) ->
  is_Some (addSteady d val).
Proof.
  intros Hnear Hi. unfold addSteady. rewrite Hnear. cbn [mbind option_bind].
  destruct (index_in_range (centroids d) i Hi) as [left Hleft].
  rewrite Hleft. cbn [mbind option_bind].
  destruct (roomAt_total _ _ _ Hleft) as [[d1 lhr] Hl]. rewrite Hl.
  cbn [mbind option_bind].
  pose proof (roomAt_cache_equiv _ _ _ _ Hl) as Heq1.
  pose proof (cache_equiv_length _ _ Heq1) as Hlen1.
  destruct (cache_equiv_index _ _ _ _ Heq1 Hleft) as (left1 & Hleft1 & _).
  destruct (flt val (mean left)).
  { destruct lhr; [by eapply incAt_returns|apply addCentroid_returns; lia]. }
  destruct (Z.eqb_spec i (Z.of_nat (length (centroids d1)) - 1)).
  { destruct lhr; [by eapply incAt_returns|apply addCentroid_returns; lia]. }
  destruct (index_in_range (centroids d1) (i + 1)) as [right Hright]; [lia|].
  rewrite Hright. cbn [mbind option_bind].
  destruct (roomAt_total _ _ _ Hright) as [[d2 rhr] Hr]. rewrite Hr.
  cbn [mbind option_bind].
  pose proof (roomAt_cache_equiv _ _ _ _ Hr) as Heq2.
  pose proof (cache_equiv_length _ _ Heq2) as Hlen2.
  destruct (cache_equiv_index _ _ _ _ Heq2 Hleft1) as (left2 & Hleft2 & _).
  destruct (cache_equiv_index _ _ _ _ Heq2 Hright) as (right2 & Hright2 & _).
  destruct lhr, rhr.
  - destruct (appendLower d2).
    + destruct (incAt_returns d2 i val _ Hleft2) as [d3 ->]. by eexists.
    + destruct (incAt_returns d2 (i + 1) val _ Hright2) as [d3 ->]. by eexists.
  - by eapply incAt_returns.
  - by eapply incAt_returns.
  - apply addCentroid_returns. lia.
Qed.

Lemma add_returns d val :
  nCentroids d = Z.of_nat (length (centroids d)) ->
  (2 <= nCentroids d ->
   exists i, nearest d val = Some i /\ 0 <= i < Z.of_nat (length (centroids d))) ->
  is_Some (add d val).
Proof.
  intros Hn Hnear. unfold add.
  destruct (Z.eqb_spec (nCentroids d) 0); [apply addCentroid_returns; lia|].
  destruct (Z.eqb_spec (nCentroids d) 1).
  { destruct (index_in_range (centroids d) 0) as [c Hc]; [lia|].
    rewrite Hc. cbn [mbind option_bind].
    destruct (flt (count c) _); [by eapply incAt_returns|].
    destruct (flt val _); apply addCentroid_returns; lia. }
  destruct Hnear as (i & Hi & Hr); [lia|]. by eapply addSteady_returns.
Qed.

End AddEffect.

Lemma total_app (l1 l2 : list Z) : total (l1 ++ l2) = total l1 + total l2.
Proof. induction l1 as [|k l1 IH]; simpl; lia. Qed.

Lemma total_take_drop (ks : list Z) (i : nat) :
  total (take i ks) + total (drop i ks) = total ks.
Proof. by rewrite <- total_app, take_drop. Qed.

Lemma total_insert (ks : list Z) (i : nat) (k k' : Z) :
  ks !! i = Some k -> total (<[i:=k']> ks) = total ks - k + k'.
Proof.
  revert i. induction ks as [|x ks IH]; intros [|i]; simpl; try done.
  - intros [= ->]. lia.
  - intros Hk. rewrite (IH _ Hk). lia.
Qed.

Lemma total_nonneg (ks : list Z) : Forall (fun k => 1 <= k) ks -> 0 <= total ks.
Proof. induction 1; simpl; lia. Qed.

Lemma total_lookup_le (ks : list Z) (i : nat) (k : Z) :
  Forall (fun k => 1 <= k) ks -> ks !! i = Some k -> 1 <= k <= total ks.
Proof.
  intros Hks. revert i. induction Hks as [|x ks Hx Hks IH]; intros [|i]; simpl; try done.
  - intros [= ->]. pose proof (total_nonneg _ Hks). lia.
  - intros Hk. specialize (IH _ Hk). lia.
Qed.

Section IntegerWeights.
Context {F : Type} `{Float64 F}.
Implicit Types (d : TDigest F) (c : centroid F) (val : F).

(** Up to [bound], adding integers is exact. *)
Variable bound : Z.
Hypothesis fadd_exact :
  forall a b, 0 <= a -> 0 <= b -> a + b <= bound ->
              fadd (of_int a) (of_int b) = of_int (a + b).

Lemma fadd_succ (k : Z) :
  0 <= k < bound -> fadd (of_int k) (of_int 1) = of_int (k + 1).
Proof. intros Hk. apply fadd_exact; lia. Qed.

Lemma counts_summaries d : count <$> centroids d = snd <$> summaries d.
Proof. unfold summaries. by rewrite <- list_fmap_compose. Qed.

Lemma step_weights d d' val p ks :
  weights_are d ks -> total ks < bound -> placed d d' val p ->
  exists ks', weights_are d' ks' /\ total ks' = total ks + 1.
Proof.
  intros (Hks & Hpos) HN (_ & _ & Hp).
  destruct p as [i|i];
    [destruct Hp as ((c & Hc & Habs) & _)|destruct Hp as ((Hi & Hins) & _)].
  - apply index_Some in Hc as [Hi Hc].
    assert (Hk : exists k, ks !! Z.to_nat i = Some k /\ count c = of_int k).
    { assert (Hl : (count <$> centroids d) !! Z.to_nat i = Some (count c))
        by (by rewrite list_lookup_fmap, Hc).
      rewrite Hks, list_lookup_fmap in Hl.
      destruct (ks !! Z.to_nat i) as [k|]; [|done]. exists k. split; [done|].
      simpl in Hl. congruence. }
    destruct Hk as (k & Hk & Hck).
    pose proof (total_lookup_le _ _ _ Hpos Hk) as Hkle.
    exists (<[Z.to_nat i := k + 1]> ks). split; [split|].
    + rewrite counts_summaries, Habs, fmap_store. simpl.
      rewrite <- counts_summaries, Hks, Hck, fadd_succ by lia.
      unfold store. by rewrite list_fmap_insert.
    + apply Forall_insert; [done|lia].
    + rewrite (total_insert _ _ _ _ Hk). lia.
  - exists (take (Z.to_nat i) ks ++ 1 :: drop (Z.to_nat i) ks). split; [split|].
    + rewrite counts_summaries, Hins, fmap_app, fmap_cons, fmap_take, fmap_drop.
      simpl. rewrite <- counts_summaries, Hks.
      by rewrite fmap_app, fmap_cons, fmap_take, fmap_drop.
    + apply Forall_app. split; [by apply Forall_take|].
      constructor; [lia|by apply Forall_drop].
    + rewrite total_app. simpl. pose proof (total_take_drop ks (Z.to_nat i)). lia.
Qed.

Lemma Add_integer_weights d d' val ks N :
  integer_weights d ks N -> 0 <= N < bound -> Add d val = Some d' ->
  exists ks', integer_weights d' ks' (N + 1).
Proof.
  intros (Hw & Htot & Hcnt) HN HAdd. unfold Add in HAdd.
  destruct (add d val) as [d1|] eqn:Hadd; [simpl in HAdd|done].
  injection HAdd as <-. apply add_placement in Hadd as (p & _ & Hadd).
  destruct (step_weights _ _ _ _ _ Hw ltac:(lia) Hadd) as (ks' & Hw' & Htot').
  destruct Hadd as (Hc & _). exists ks'. split; [done|]. split; [lia|]. simpl.
  rewrite Hc, Hcnt. by apply fadd_succ.
Qed.

Lemma AddAll_integer_weights vals : forall d d' ks N,
  integer_weights d ks N -> 0 <= N -> N + Z.of_nat (length vals) <= bound ->
  AddAll d vals = Some d' ->
  exists ks', integer_weights d' ks' (N + Z.of_nat (length vals)).
Proof.
  induction vals as [|v vals IH]; intros d d' ks N Hinv HN Hb; simpl.
  - intros [= <-]. exists ks. by rewrite Z.add_0_r.
  - destruct (Add d v) as [d1|] eqn:HAdd; [simpl|done]. intros Hrest.
    simpl in Hb.
    destruct (Add_integer_weights _ _ _ _ _ Hinv ltac:(lia) HAdd) as (ks1 & Hinv1).
    destruct (IH _ _ _ _ Hinv1 ltac:(lia) ltac:(lia) Hrest) as (ks' & Hinv').
    exists ks'. by replace (N + Z.of_nat (S (length vals)))
      with (N + 1 + Z.of_nat (length vals)) by lia.
Qed.

Lemma integer_weights_cache_equiv d d' ks N :
  cache_equiv d d' -> integer_weights d ks N -> integer_weights d' ks N.
Proof.
  intros (Hs & _ & Hc & _) ((Hks & Hpos) & Htot & Hcnt).
  split; [split|split]; try done; [|congruence].
  by rewrite counts_summaries, Hs, <- counts_summaries.
Qed.

Lemma New_integer_weights (c : F) : integer_weights (New c) [] 0.
Proof. repeat split. constructor. Qed.

Lemma fold_counts_of_int (cs : list (centroid F)) : forall ks a,
  count <$> cs = of_int <$> ks -> Forall (fun k => 1 <= k) ks ->
  0 <= a -> a + total ks <= bound ->
  fold_left (fun t c => fadd t (count c)) cs (of_int a) = of_int (a + total ks).
Proof.
  induction cs as [|c cs IH]; intros [|k ks] a Hks Hpos Ha Hb;
    try (simpl in Hks; discriminate).
  - cbn [fold_left]. change (total []) with 0. by rewrite Z.add_0_r.
  - rewrite !fmap_cons in Hks. injection Hks as Hk Hks.
    apply Forall_cons in Hpos as [Hk1 Hpos].
    pose proof (total_nonneg _ Hpos).
    change (total (k :: ks)) with (k + total ks) in *.
    cbn [fold_left]. rewrite Hk, fadd_exact by lia.
    rewrite (IH ks) by (done || lia). f_equal. lia.
Qed.

(** The float sum of a stretch of counts is the float of their integer
    sum. *)
Lemma sum_counts_of_int (cs : list (centroid F)) (ks : list Z) :
  count <$> cs = of_int <$> ks -> Forall (fun k => 1 <= k) ks ->
  total ks <= bound ->
  sum_counts cs = of_int (total ks).
Proof.
  intros Hks Hpos Hb. unfold sum_counts.
  by rewrite (fold_counts_of_int _ ks 0).
Qed.

End IntegerWeights.

(** ** The capacity policy *)

Section CapacityFacts.
Context {F : Type} `{Float64 F}.
Implicit Types (d : TDigest F) (c : centroid F).

(** What [hasRoom] stores, and how it got the position. *)
Lemma hasRoom_capacity d idx d' b :
  hasRoom d idx = Some (d', b) ->
  exists c c' q,
    index (centroids d) idx = Some c /\
    index (centroids d') idx = Some c' /\
    quantileOf d idx = Some q /\
    maxCount c' = capacity d q /\
    c_nCentroids c' = nCentroids d /\
    b = flt (count c) (maxCount c') /\
    (idx <= Z.quot (nCentroids d) 2 -> spec_position d idx = Some q) /\
    (Z.quot (nCentroids d) 2 < idx ->
     q = fsub (of_int 1)
              (fdiv (fadd (fdiv (count c) (of_int 2))
                          (sum_counts (drop (Z.to_nat (idx + 1)) (centroids d))))
                    (d_count d))).
Proof.
  intros (c & q & Hc & Hq & -> & ->)%hasRoom_spec.
  exists c, (Centroid (mean c) (count c) (capacity d q) (nCentroids d)), q.
  split; [done|]. split; [by eapply index_store_eq|].
  split; [done|]. split; [done|]. split; [done|]. split; [done|].
  unfold quantileOf, spec_position, slice_from, slice_to in *. rewrite Hc in *.
  destruct (Z.ltb_spec (Z.quot (nCentroids d) 2) idx);
    (destruct (_ || _); [done|]); simpl in *; injection Hq as <-;
    split; (done || lia).
Qed.
End CapacityFacts.

(** ** [Quantile] never panics *)

Section QuantileFacts.
Context {F : Type} `{Float64 F}.

Lemma walk_range (cs : list (centroid F)) (q : F) :
  forall qTotal i idx,
    (walk cs q qTotal i idx).2 = idx \/
    i <= (walk cs q qTotal i idx).2 < i + Z.of_nat (length cs).
Proof.
  induction cs as [|c cs IH]; intros qTotal i idx; simpl; [by left|].
  right. destruct (fge _ _); simpl; [lia|].
  destruct (IH (fadd qTotal (count c)) (i + 1) i) as [->|]; lia.
Qed.

Lemma Quantile_total (d : TDigest F) (q : F) : is_Some (Quantile d q).
Proof.
  unfold Quantile.
  destruct (Z.eqb_spec (Z.of_nat (length (centroids d))) 0); [by eexists|].
  destruct (Z.eqb_spec (Z.of_nat (length (centroids d))) 1) as [H1|H1].
  { destruct (index_in_range (centroids d) 0) as [c ->]; [lia|]. by eexists. }
  set (q' := fmul _ _).
  pose proof (walk_range (centroids d) q' (of_int 0) 0 0) as Hw.
  destruct (walk _ _ _ _ _) as [qTotal idx]. simpl in Hw.
  assert (Hidx : 0 <= idx < Z.of_nat (length (centroids d))) by lia.
  destruct (Z.eqb_spec idx 0).
  { destruct (index_in_range (centroids d) 0) as [c0 ->]; [lia|].
    destruct (index_in_range (centroids d) 1) as [c1 ->]; [lia|]. by eexists. }
  destruct (Z.eqb_spec idx (Z.of_nat (length (centroids d)) - 1)).
  { destruct (index_in_range (centroids d) (Z.of_nat (length (centroids d)) - 2))
      as [c0 ->]; [lia|].
    destruct (index_in_range (centroids d) (Z.of_nat (length (centroids d)) - 1))
      as [c1 ->]; [lia|]. by eexists. }
  destruct (index_in_range (centroids d) (idx - 1)) as [c0 ->]; [lia|].
  destruct (index_in_range (centroids d) idx) as [c1 ->]; [lia|]. by eexists.
Qed.

End QuantileFacts.

(** ** binary64 is exact on the integers up to [2^53] *)

(* [B64] last: where the carrier is not given, it is binary64. *)
Import Exact B64.

Lemma digits2_pos_log2 (p : positive) :
  Z.pos (digits2_pos p) = Z.log2 (Z.pos p) + 1.
Proof.
  assert (Hs : forall q, digits2_pos q = Pos.size q)
    by (induction q; simpl; congruence).
  rewrite Hs. destruct p; simpl; lia.
Qed.

Lemma iter_xO_pow (s m : positive) :
  Z.pos (Pos.iter xO m s) = Z.pos m * 2 ^ Z.pos s.
Proof.
  induction s as [|s IH] using Pos.peano_ind.
  - simpl. lia.
  - rewrite Pos.iter_succ, Pos2Z.inj_xO, IH, Pos2Z.inj_succ, Z.pow_succ_r; lia.
Qed.

Lemma shr_1_even (m : positive) :
  shr_1 (Build_shr_record (Z.pos m~0) false false)
  = Build_shr_record (Z.pos m) false false.
Proof. reflexivity. Qed.

Lemma iter_shr_1_exact (n : positive) :
  forall m : positive,
    SpecFloat.iter_pos shr_1 n (Build_shr_record (Z.pos (m * 2 ^ n)) false false)
    = Build_shr_record (Z.pos m) false false.
Proof.
  induction n as [n IH|n IH|]; intros m; cbn [SpecFloat.iter_pos].
  - replace (m * 2 ^ n~1)%positive with ((m * 2 ^ n * 2 ^ n)~0)%positive.
    + rewrite shr_1_even, !IH. reflexivity.
    + apply Pos2Z.inj. rewrite Pos2Z.inj_xO, !Pos2Z.inj_mul, !Pos2Z.inj_pow.
      replace (Z.pos n~1) with (Z.pos n + Z.pos n + 1) by lia.
      rewrite !Z.pow_add_r by lia. ring.
  - replace (m * 2 ^ n~0)%positive with (m * 2 ^ n * 2 ^ n)%positive.
    + rewrite !IH. reflexivity.
    + apply Pos2Z.inj. rewrite !Pos2Z.inj_mul, !Pos2Z.inj_pow.
      replace (Z.pos n~0) with (Z.pos n + Z.pos n) by lia.
      rewrite !Z.pow_add_r by lia. ring.
  - replace (m * 2 ^ 1)%positive with (m~0)%positive by lia. reflexivity.
Qed.

Lemma shr_fexp_canonical (m : positive) (e : Z) :
  Z.log2 (Z.pos m) + 1 = 53 -> -1074 <= e ->
  shr_fexp 53 1024 (Z.pos m) e loc_Exact
  = (Build_shr_record (Z.pos m) false false, e).
Proof.
  intros Hd He. unfold shr_fexp, Zdigits2. rewrite digits2_pos_log2, Hd.
  unfold fexp, emin.
  replace (Z.max (53 + e - 53) (3 - 1024 - 53) - e) with 0 by lia.
  reflexivity.
Qed.

Lemma binary_round_aux_canonical (m : positive) (e : Z) :
  Z.log2 (Z.pos m) + 1 = 53 -> -1074 <= e <= 971 ->
  binary_round_aux 53 1024 false (Z.pos m) e loc_Exact = S754_finite false m e.
Proof.
  intros Hd He. unfold binary_round_aux.
  rewrite shr_fexp_canonical by lia. simpl shr_m. simpl loc_of_shr_record.
  simpl round_nearest_even. rewrite shr_fexp_canonical by lia. simpl shr_m.
  destruct (Z.leb_spec e (1024 - 53)); [done|lia].
Qed.

Lemma binary_round_exact (k p m : positive) (j e0 : Z) :
  let d := Z.log2 (Z.pos k) + 1 in
  d <= 53 -> 0 <= j -> -1074 <= e0 + d - 53 <= 971 ->
  Z.pos p = Z.pos k * 2 ^ j ->
  Z.pos m = Z.pos k * 2 ^ (53 - d) ->
  binary_round prec emax false p (e0 - j) = S754_finite false m (e0 + d - 53).
Proof.
  intros d Hd Hj He Hp Hm.
  assert (Hlm : Z.log2 (Z.pos m) + 1 = 53).
  { rewrite Hm, Z.log2_mul_pow2 by lia. unfold d. lia. }
  assert (Hlp : Z.log2 (Z.pos p) + 1 = d + j).
  { rewrite Hp, Z.log2_mul_pow2 by lia. unfold d. lia. }
  unfold prec, emax, binary_round. rewrite digits2_pos_log2, Hlp.
  unfold fexp at 1. unfold emin.
  replace (Z.max (d + j + (e0 - j) - 53) (3 - 1024 - 53)) with (e0 + d - 53) by lia.
  unfold shl_align.
  destruct (e0 + d - 53 - (e0 - j)) as [|s|s] eqn:Hs.
  - (* already 53 digits *)
    assert (p = m) as ->.
    { apply Pos2Z.inj. rewrite Hp, Hm. f_equal. f_equal. lia. }
    replace (e0 - j) with (e0 + d - 53) by lia.
    apply binary_round_aux_canonical; [done|lia].
  - (* more than 53 digits, the low ones being 0 *)
    assert (Hpm : p = (m * 2 ^ s)%positive).
    { apply Pos2Z.inj. rewrite Pos2Z.inj_mul, Pos2Z.inj_pow, Hp, Hm.
      rewrite <- Z.mul_assoc, <- Z.pow_add_r by lia. f_equal. f_equal. lia. }
    unfold binary_round_aux.
    assert (Hsh : shr_fexp 53 1024 (Z.pos p) (e0 - j) loc_Exact
                  = (Build_shr_record (Z.pos m) false false, e0 + d - 53)).
    { unfold shr_fexp, Zdigits2. rewrite digits2_pos_log2, Hlp.
      unfold fexp, emin.
      replace (Z.max (d + j + (e0 - j) - 53) (3 - 1024 - 53) - (e0 - j))
        with (Z.pos s) by lia.
      unfold shr. simpl shr_record_of_loc. rewrite Hpm, iter_shr_1_exact.
      f_equal. lia. }
    rewrite Hsh. simpl shr_m. simpl loc_of_shr_record. simpl round_nearest_even.
    rewrite shr_fexp_canonical by lia. simpl shr_m.
    destruct (Z.leb_spec (e0 + d - 53) (1024 - 53)); [done|lia].
  - (* fewer than 53 digits: align to the left *)
    assert (Pos.iter xO p s = m) as ->.
    { apply Pos2Z.inj. rewrite iter_xO_pow, Hp, Hm.
      rewrite <- Z.mul_assoc, <- Z.pow_add_r by lia. f_equal. f_equal. lia. }
    apply binary_round_aux_canonical; [done|lia].
Qed.

Lemma of_int_canonical (k : Z) :
  let d := Z.log2 k + 1 in
  1 <= k < 2 ^ 53 ->
  exists m, of_int k = S754_finite false m (d - 53) /\
            Z.pos m = k * 2 ^ (53 - d).
Proof.
  intros d Hk.
  assert (Hd : 1 <= d <= 53).
  { unfold d. pose proof (Z.log2_nonneg k).
    assert (Z.log2 k < 53) by (apply Z.log2_lt_pow2; lia). lia. }
  destruct k as [|p|p]; try lia.
  assert (0 < Z.pos p * 2 ^ (53 - d)) by (apply Z.mul_pos_pos; [lia|apply Z.pow_pos_nonneg; lia]).
  exists (Z.to_pos (Z.pos p * 2 ^ (53 - d))). split; [|rewrite Z2Pos.id; lia].
  cbn [of_int float64 ldexp binary_normalize].
  change 0 with (0 - 0). replace (d - 53) with (0 + d - 53) by lia.
  apply (binary_round_exact p); fold d; try lia.
Qed.

Lemma shl_align_value (m : positive) (e ez : Z) :
  ez <= e -> Z.pos (shl_align m e ez).1 = Z.pos m * 2 ^ (e - ez).
Proof.
  intros He. unfold shl_align.
  destruct (ez - e) as [|s|s] eqn:Hs; simpl.
  - replace (e - ez) with 0 by lia. lia.
  - lia.
  - rewrite iter_xO_pow. f_equal. f_equal. lia.
Qed.

(** Addition is exact on the integers up to [2^53]. *)
Lemma fadd_of_int (a b : Z) :
  0 <= a -> 0 <= b -> a + b <= 2 ^ 53 ->
  fadd (of_int a) (of_int b) = of_int (a + b).
Proof.
  intros Ha Hb Hab.
  destruct (Z.eq_dec a 0) as [->|Ha0].
  { rewrite Z.add_0_l.
    destruct (Z.eq_dec b 0) as [->|Hb0]; [reflexivity|].
    destruct (Z.eq_dec b (2 ^ 53)) as [->|Hb1]; [reflexivity|].
    destruct (of_int_canonical b) as (m & -> & _); [lia|reflexivity]. }
  destruct (Z.eq_dec b 0) as [->|Hb0].
  { rewrite Z.add_0_r.
    destruct (Z.eq_dec a (2 ^ 53)) as [->|Ha1]; [reflexivity|].
    destruct (of_int_canonical a) as (m & -> & _); [lia|reflexivity]. }
  destruct (of_int_canonical a) as (ma & -> & Hma); [lia|].
  destruct (of_int_canonical b) as (mb & -> & Hmb); [lia|].
  set (da := Z.log2 a + 1) in *. set (db := Z.log2 b + 1) in *.
  assert (Hda : 1 <= da <= 53).
  { unfold da. pose proof (Z.log2_nonneg a).
    assert (Z.log2 a < 53) by (apply Z.log2_lt_pow2; lia). lia. }
  assert (Hdb : 1 <= db <= 53).
  { unfold db. pose proof (Z.log2_nonneg b).
    assert (Z.log2 b < 53) by (apply Z.log2_lt_pow2; lia). lia. }
  cbn [fadd float64 SFadd cond_Zopp].
  set (ez := Z.min (da - 53) (db - 53)).
  assert (Hpa : Z.pos (shl_align ma (da - 53) ez).1 = a * 2 ^ (- ez)).
  { rewrite shl_align_value, Hma by lia.
    rewrite <- Z.mul_assoc, <- Z.pow_add_r by lia. f_equal. f_equal. lia. }
  assert (Hpb : Z.pos (shl_align mb (db - 53) ez).1 = b * 2 ^ (- ez)).
  { rewrite shl_align_value, Hmb by lia.
    rewrite <- Z.mul_assoc, <- Z.pow_add_r by lia. f_equal. f_equal. lia. }
  set (pa := (shl_align ma (da - 53) ez).1) in *.
  set (pb := (shl_align mb (db - 53) ez).1) in *.
  change (Z.pos pa + Z.pos pb) with (Z.pos (pa + pb)).
  cbn [binary_normalize].
  assert (Hp : Z.pos (pa + pb) = (a + b) * 2 ^ (- ez))
    by (rewrite Pos2Z.inj_add, Hpa, Hpb; ring).
  destruct (Z.eq_dec (a + b) (2 ^ 53)) as [Hmax|Hmax].
  - rewrite Hmax. change (of_int (2 ^ 53)) with (S754_finite false 4503599627370496 1).
    replace ez with (1 - (- ez + 1)) at 1 by lia.
    replace 1 with (1 + (Z.log2 (Z.pos 4503599627370496) + 1) - 53) at 3
      by reflexivity.
    apply binary_round_exact; try (simpl; lia).
    rewrite Hp, Hmax, Z.pow_add_r by lia.
    change (2 ^ 53) with (4503599627370496 * 2). change (2 ^ 1) with 2. ring.
  - destruct (of_int_canonical (a + b)) as (m & -> & Hm); [lia|].
    set (d := Z.log2 (a + b) + 1) in *.
    assert (Hd : 1 <= d <= 53).
    { unfold d. pose proof (Z.log2_nonneg (a + b)).
      assert (Z.log2 (a + b) < 53) by (apply Z.log2_lt_pow2; lia). lia. }
    replace ez with (0 - - ez) at 1 by lia.
    replace (d - 53) with (0 + d - 53) by lia.
    destruct (a + b) as [|k|k] eqn:Hk; try lia.
    apply (binary_round_exact k); fold d; try lia.
Qed.

Lemma to_int_of_int (k : Z) : 0 <= k <= 2 ^ 53 -> to_int (of_int k) = Some k.
Proof.
  intros Hk.
  destruct (Z.eq_dec k 0) as [->|H0]; [reflexivity|].
  destruct (Z.eq_dec k (2 ^ 53)) as [->|H1]; [reflexivity|].
  destruct (of_int_canonical k) as (m & -> & Hm); [lia|].
  set (d := Z.log2 k + 1) in *.
  assert (Hd : 1 <= d <= 53).
  { unfold d. pose proof (Z.log2_nonneg k).
    assert (Z.log2 k < 53) by (apply Z.log2_lt_pow2; lia). lia. }
  unfold to_int, cond_Zopp. rewrite Hm.
  destruct (Z.leb_spec 0 (d - 53)).
  - replace (d - 53) with 0 by lia. replace (53 - d) with 0 by lia.
    f_equal. lia.
  - replace (- (d - 53)) with (53 - d) by lia.
    assert (0 < 2 ^ (53 - d)) by (apply Z.pow_pos_nonneg; lia).
    rewrite Z.mod_mul, Z.div_mul by lia. reflexivity.
Qed.

Lemma weights_to_int (cs : list (centroid spec_float)) : forall ks,
  count <$> cs = of_int <$> ks -> Forall (fun k => 1 <= k) ks ->
  total ks <= 2 ^ 53 ->
  Forall2 (fun cen k => to_int (count cen) = Some k) cs ks.
Proof.
  induction cs as [|c cs IH]; intros [|k ks] Hks Hpos Hb;
    try (simpl in Hks; discriminate).
  - constructor.
  - rewrite !fmap_cons in Hks. injection Hks as Hk Hks.
    change (count c = of_int k) in Hk.
    change (count <$> cs = of_int <$> ks) in Hks.
    apply Forall_cons in Hpos as [Hk1 Hpos].
    pose proof (total_nonneg _ Hpos).
    change (total (k :: ks)) with (k + total ks) in *.
    constructor; [|apply IH; (done || lia)].
    rewrite Hk. apply to_int_of_int. lia.
Qed.

(** ** Beyond [2^53] calls the counts stop counting *)

Lemma of_int_positive (k : Z) :
  1 <= k <= 2 ^ 53 -> exists m e, of_int k = S754_finite false m e /\ e <= 1.
Proof.
  intros Hk. destruct (Z.eq_dec k (2 ^ 53)) as [->|H1].
  - exists 4503599627370496%positive, 1. split; [reflexivity|lia].
  - destruct (of_int_canonical k) as (m & -> & _); [lia|].
    eexists. eexists. split; [reflexivity|].
    assert (Z.log2 k < 53) by (apply Z.log2_lt_pow2; lia). lia.
Qed.

Lemma Add_lone (k : Z) :
  1 <= k < 2 ^ 53 -> Add (lone k) (of_int 0) = Some (lone (k + 1)).
Proof.
  intros Hk.
  destruct (of_int_positive k) as (m & e & Hm & He); [lia|].
  destruct (of_int_positive (k + 1)) as (m' & e' & Hm' & He'); [lia|].
  pose proof (fadd_succ (2 ^ 53) fadd_of_int k ltac:(lia)) as Hs.
  rewrite (Add_single_with_room (lone k) _ _ eq_refl eq_refl).
  - unfold lone, inc.
    cbn [compression d_count p5Centroid p95Centroid appendLower count mean
         maxCount c_nCentroids].
    change (ldexp k 0) with (of_int k). change (ldexp (k + 1) 0) with (of_int (k + 1)).
    rewrite Hs, Hm'. reflexivity.
  - cbn [count compression lone]. change (ldexp k 0) with (of_int k).
    rewrite Hm. change (ldexp 1 60) with (S754_finite false 4503599627370496 8).
    cbv [flt float64 SFltb SFcompare].
    destruct (Z.compare_spec e 8); (done || lia).
Qed.

Lemma AddAll_lone (n : nat) : forall k,
  1 <= k -> k + Z.of_nat n <= 2 ^ 53 ->
  AddAll (lone k) (replicate n (of_int 0)) = Some (lone (k + Z.of_nat n)).
Proof.
  induction n as [|n IH]; intros k Hk Hb.
  - simpl. by rewrite Z.add_0_r.
  - cbn [replicate AddAll]. rewrite Add_lone by lia. cbn [mbind option_bind].
    rewrite IH by lia. do 2 f_equal. lia.
Qed.

Lemma Add_lone_saturated :
  Add (lone (2 ^ 53)) (of_int 0) = Some (lone (2 ^ 53)).
Proof. vm_compute. reflexivity. Qed.

Lemma Add_New_lone : Add (New (ldexp 1 60)) (of_int 0) = Some (lone 1).
Proof. vm_compute. reflexivity. Qed.

Lemma AddAll_saturates (n : nat) :
  Z.of_nat n = 2 ^ 53 - 1 ->
  AddAll (New (ldexp 1 60)) (of_int 0 :: replicate n (of_int 0) ++ [of_int 0])
  = Some (lone (2 ^ 53)).
Proof.
  intros Hn. cbn [AddAll]. rewrite Add_New_lone. cbn [mbind option_bind].
  rewrite AddAll_app, AddAll_lone by lia. cbn [mbind option_bind AddAll].
  replace (1 + Z.of_nat n) with (2 ^ 53) by lia.
  rewrite Add_lone_saturated. reflexivity.
Qed.

Lemma length_saturating (n : nat) (v : spec_float) :
  Z.of_nat (length (v :: replicate n v ++ [v])) = Z.of_nat n + 2.
Proof. cbn [length]. rewrite length_app, length_replicate. cbn [length]. lia. Qed.

(** ** The algorithm in exact arithmetic *)

Lemma Qadd_of_int (a b : Z) :
  fadd (of_int a) (of_int b) = (of_int (a + b) : Q).
Proof.
  cbn [fadd of_int rational]. unfold Qplus, inject_Z. cbn [Qnum Qden].
  f_equal. lia.
Qed.

Lemma reachable_integer_weights (c : Q) (vals : list Q) (d : TDigest Q) :
  AddAll (New c) vals = Some d ->
  exists ks, integer_weights d ks (Z.of_nat (length vals)).
Proof.
  intros Hrun.
  destruct (AddAll_integer_weights (Z.of_nat (length vals))
              (fun a b _ _ _ => Qadd_of_int a b) vals _ _ [] 0
              (New_integer_weights c) ltac:(lia) ltac:(lia) Hrun) as (ks & Hks).
  by exists ks.
Qed.

Lemma Qsum_counts (cs : list (centroid Q)) (ks : list Z) :
  count <$> cs = of_int <$> ks -> Forall (fun k => 1 <= k) ks ->
  sum_counts cs = inject_Z (total ks).
Proof.
  intros Hks Hpos.
  apply (sum_counts_of_int (total ks) (fun a b _ _ _ => Qadd_of_int a b));
    (done || lia).
Qed.

(** In exact arithmetic the accumulation from the top gives the position
    the specification defines. *)
Lemma quantileOf_spec_position (d : TDigest Q) (ks : list Z) (N idx : Z) (q : Q) :
  integer_weights d ks N ->
  quantileOf d idx = Some q ->
  exists q', spec_position d idx = Some q' /\ (q == q')%Q.
Proof.
  intros ((Hks & Hpos) & Htot & Hcnt) Hq.
  unfold quantileOf, spec_position, slice_from, slice_to in *.
  destruct (Z.quot (nCentroids d) 2 <? idx).
  - destruct (_ || _); [done|]. simpl in Hq.
    destruct (index (centroids d) idx) as [c|] eqn:Hc; [|done].
    simpl in *. injection Hq as <-. eexists. split; [done|].
    apply index_Some in Hc as [Hi Hc].
    assert (Hk : exists k, ks !! Z.to_nat idx = Some k /\ count c = inject_Z k).
    { assert (Hl : (count <$> centroids d) !! Z.to_nat idx = Some (count c))
        by (by rewrite list_lookup_fmap, Hc).
      rewrite Hks, list_lookup_fmap in Hl.
      destruct (ks !! Z.to_nat idx) as [k|]; [|done]. exists k. split; [done|].
      simpl in Hl. congruence. }
    destruct Hk as (k & Hk & Hck).
    rewrite (Qsum_counts _ (drop (Z.to_nat (idx + 1)) ks)),
            (Qsum_counts _ (take (Z.to_nat idx) ks)), Hck, Hcnt;
      [|by rewrite fmap_take, Hks, fmap_take|by apply Forall_take
       |by rewrite fmap_drop, Hks, fmap_drop|by apply Forall_drop].
    assert (Hsplit : total (take (Z.to_nat idx) ks) + k
                     + total (drop (Z.to_nat (idx + 1)) ks) = N).
    { pose proof (total_take_drop ks (Z.to_nat idx)) as Htd.
      rewrite (drop_S _ _ _ Hk) in Htd. cbn [total foldr] in Htd.
      replace (Z.to_nat (idx + 1)) with (S (Z.to_nat idx)) by lia.
      unfold total in *. lia. }
    pose proof (total_lookup_le _ _ _ Hpos Hk) as Hkle.
    set (A := total (take (Z.to_nat idx) ks)) in *.
    set (B := total (drop (Z.to_nat (idx + 1)) ks)) in *.
    assert (HN : ~ (inject_Z N == 0)%Q).
    { intros HN0. apply (Qeq_bool_iff (inject_Z N) 0) in HN0.
      unfold Qeq_bool, inject_Z in HN0. simpl in HN0.
      apply Z.eqb_eq in HN0. lia. }
    cbn [fsub fdiv fadd of_int rational].
    replace N with (A + k + B) in * by lia.
    rewrite !inject_Z_plus. field. by rewrite <- !inject_Z_plus.
  - destruct (_ || _); [done|]. simpl in Hq.
    destruct (index (centroids d) idx) as [c|]; [|done].
    simpl in *. injection Hq as <-. by eexists.
Qed.

(** ** Order and safety in exact arithmetic *)

Lemma Qflt_true (x y : Q) : flt x y = true <-> (x < y)%Q.
Proof.
  cbn [flt rational]. rewrite negb_true_iff. split.
  - intros Hle. apply Qnot_le_lt. intros Hyx.
    apply Qle_bool_iff in Hyx. congruence.
  - intros Hlt. destruct (Qle_bool y x) eqn:Hle; [|done].
    apply Qle_bool_iff in Hle. by apply Qlt_not_le in Hlt.
Qed.

Lemma Qflt_false (x y : Q) : flt x y = false <-> (y <= x)%Q.
Proof.
  cbn [flt rational]. rewrite negb_false_iff. apply Qle_bool_iff.
Qed.

Lemma Qfle_true (x y : Q) : fle x y = true <-> (x <= y)%Q.
Proof. apply Qle_bool_iff. Qed.

Lemma ordered_update (ms : list Q) (i : nat) (m' : Q) :
  ordered ms ->
  (forall a, (0 < i)%nat -> ms !! (i - 1)%nat = Some a -> (a <= m')%Q) ->
  (forall b, ms !! S i = Some b -> (m' <= b)%Q) ->
  ordered (<[i := m']> ms).
Proof.
  intros Hord Hlo Hhi j a b Ha Hb.
  destruct (decide (i = j)) as [->|Hij].
  - rewrite list_lookup_insert_ne in Hb by lia.
    apply lookup_lt_Some in Ha as Hlen. rewrite length_insert in Hlen.
    rewrite list_lookup_insert_eq in Ha by done. injection Ha as <-. eauto.
  - rewrite list_lookup_insert_ne in Ha by done.
    destruct (decide (i = S j)) as [->|Hij'].
    + apply lookup_lt_Some in Hb as Hlen. rewrite length_insert in Hlen.
      rewrite list_lookup_insert_eq in Hb by done. injection Hb as <-.
      apply (Hlo a); [lia|]. by replace (S j - 1)%nat with j by lia.
    + rewrite list_lookup_insert_ne in Hb by done. eauto.
Qed.

Lemma ordered_insert (ms : list Q) (i : nat) (v : Q) :
  ordered ms -> (i <= length ms)%nat ->
  (forall a, (0 < i)%nat -> ms !! (i - 1)%nat = Some a -> (a <= v)%Q) ->
  (forall b, ms !! i = Some b -> (v <= b)%Q) ->
  ordered (take i ms ++ v :: drop i ms).
Proof.
  intros Hord Hi Hlo Hhi j a b Ha Hb.
  assert (Hlen : length (take i ms) = i) by (rewrite length_take; lia).
  destruct (decide (S j < i)%nat).
  - rewrite lookup_app_l, lookup_take_lt in Ha by lia.
    rewrite lookup_app_l, lookup_take_lt in Hb by lia. eauto.
  - destruct (decide (S j = i)) as [<-|].
    + rewrite lookup_app_l, lookup_take_lt in Ha by lia.
      rewrite lookup_app_r, Hlen, Nat.sub_diag in Hb by lia.
      injection Hb as <-. apply (Hlo a); [lia|].
      by replace (S j - 1)%nat with j by lia.
    + destruct (decide (j = i)) as [->|].
      * rewrite lookup_app_r, Hlen, Nat.sub_diag in Ha by lia.
        injection Ha as <-.
        rewrite lookup_app_r, Hlen in Hb by lia.
        replace (S i - i)%nat with 1%nat in Hb by lia. simpl in Hb.
        rewrite lookup_drop, Nat.add_0_r in Hb. eauto.
      * rewrite lookup_app_r, Hlen in Ha by lia.
        rewrite lookup_app_r, Hlen in Hb by lia.
        replace (j - i)%nat with (S (j - i - 1)) in Ha by lia.
        replace (S j - i)%nat with (S (S (j - i - 1))) in Hb by lia.
        simpl in Ha, Hb. rewrite lookup_drop in Ha, Hb.
        apply (Hord (i + (j - i - 1))%nat); [done|].
        by replace (S (i + (j - i - 1))) with (i + S (j - i - 1))%nat by lia.
Qed.

(** One step of the running mean stays between the old mean and the value. *)
Lemma inc_mean_up (c : centroid Q) (val : Q) :
  (1 <= count c)%Q -> (mean c <= val)%Q ->
  (mean c <= mean (inc c val))%Q /\ (mean (inc c val) <= val)%Q.
Proof.
  intros Hc Hv. cbn [inc mean count fadd fsub fdiv of_int rational].
  set (k := (count c + inject_Z 1)%Q).
  assert (Hk : (1 <= k)%Q) by (unfold k, inject_Z; lra).
  assert (Hd : (0 <= (val - mean c) / k)%Q /\ ((val - mean c) / k <= val - mean c)%Q).
  { split.
    - apply Qle_shift_div_l; lra.
    - apply Qle_shift_div_r; [lra|]. nra. }
  lra.
Qed.

Lemma inc_mean_down (c : centroid Q) (val : Q) :
  (1 <= count c)%Q -> (val <= mean c)%Q ->
  (val <= mean (inc c val))%Q /\ (mean (inc c val) <= mean c)%Q.
Proof.
  intros Hc Hv. cbn [inc mean count fadd fsub fdiv of_int rational].
  set (k := (count c + inject_Z 1)%Q).
  assert (Hk : (1 <= k)%Q) by (unfold k, inject_Z; lra).
  assert (Hd : ((val - mean c) / k <= 0)%Q /\ (val - mean c <= (val - mean c) / k)%Q).
  { split.
    - apply Qle_shift_div_r; lra.
    - apply Qle_shift_div_l; [lra|]. nra. }
  lra.
Qed.

Section Locator.
Variable d : TDigest Q.
Variable val : Q.

Lemma index_unique (i : Z) (c c' : centroid Q) :
  index (centroids d) i = Some c -> index (centroids d) i = Some c' -> c = c'.
Proof. congruence. Qed.

Lemma bsearch_window (fuel : nat) : forall lo hi,
  window d val lo hi -> hi - lo <= Z.of_nat fuel ->
  (exists i, bsearch fuel (centroids d) val lo hi = Ok (Return i) /\
             brackets d val i) \/
  (exists lo' hi', bsearch fuel (centroids d) val lo hi
                   = Ok (Fallthrough lo' hi') /\ window d val lo' hi').
Proof.
  induction fuel as [|fuel IH]; intros lo hi Hw Hfuel; cbn [bsearch];
    destruct (Z.ltb_spec binarySearchThreshold (hi - lo)) as [Hd|Hd];
    unfold binarySearchThreshold in Hd; try lia;
    try (right; by exists lo, hi).
  destruct Hw as (Hlo & Hhi & Hne & Hle & Hge).
  assert (Hq : 16 <= Z.quot (hi - lo) 2 <= hi - lo - 17).
  { rewrite Z.quot_div_nonneg by lia.
    assert (hi - lo = 2 * ((hi - lo) / 2) + (hi - lo) mod 2)
      by (apply Z.div_mod; lia).
    assert (0 <= (hi - lo) mod 2 < 2) by (apply Z.mod_pos_bound; lia).
    lia. }
  set (middle := lo + Z.quot (hi - lo) 2) in *.
  destruct (index_in_range (centroids d) middle) as [cm Hcm]; [lia|].
  destruct (index_in_range (centroids d) (middle + 1)) as [cm1 Hcm1]; [lia|].
  destruct (index_in_range (centroids d) (middle - 1)) as [cm0 Hcm0]; [lia|].
  rewrite Hcm, Hcm1, Hcm0.
  destruct (flt (mean cm) val) eqn:Hm.
  - apply Qflt_true in Hm.
    destruct (flt val (mean cm1)) eqn:Hm1.
    + apply Qflt_true in Hm1. left. exists middle. split; [done|].
      split; [lia|]. split.
      * intros _ c Hc. rewrite (index_unique _ _ _ Hc Hcm). lra.
      * intros c Hc. rewrite (index_unique _ _ _ Hc Hcm1). lra.
    + apply Qflt_false in Hm1. apply IH; [|lia].
      split; [lia|]. split; [lia|]. split; [lia|]. split; [|done].
      intros _ c Hc. by rewrite (index_unique _ _ _ Hc Hcm1).
  - apply Qflt_false in Hm.
    destruct (flt (mean cm0) val) eqn:Hm0.
    + apply Qflt_true in Hm0. left. exists (middle - 1). split; [done|].
      split; [lia|]. split.
      * intros _ c Hc. rewrite (index_unique _ _ _ Hc Hcm0). lra.
      * intros c Hc. replace (middle - 1 + 1) with middle in Hc by lia.
        by rewrite (index_unique _ _ _ Hc Hcm).
    + apply IH; [|lia].
      split; [lia|]. split; [lia|]. split; [lia|]. split; [done|].
      intros c Hc. by rewrite (index_unique _ _ _ Hc Hcm).
Qed.

Lemma scan_spec (tl : list (centroid Q)) (lo hi : Z) : forall i,
  (scan tl val lo hi i = hi - 1 /\
   Forall (fun c => (mean c <= val)%Q) tl) \/
  (exists (k : nat) c,
      scan tl val lo hi i = lo + i + Z.of_nat k /\
      tl !! k = Some c /\ (val < mean c)%Q /\
      Forall (fun c => (mean c <= val)%Q) (take k tl)).
Proof.
  induction tl as [|c tl IH]; intros i; cbn [scan].
  - left. by split.
  - destruct (flt val (mean c)) eqn:Hc.
    + apply Qflt_true in Hc. right. exists 0%nat, c.
      split; [lia|]. split; [done|]. split; [done|]. constructor.
    + apply Qflt_false in Hc.
      destruct (IH (i + 1)) as [(-> & Hall)|(k & c' & -> & Hk & Hlt & Hall)].
      * left. split; [done|]. by constructor.
      * right. exists (S k), c'. split; [lia|]. split; [done|].
        split; [done|]. simpl. by constructor.
Qed.
End Locator.

Lemma hints_range (d : TDigest Q) :
  well_formed d -> 2 <= Z.of_nat (length (centroids d)) ->
  0 <= p5Centroid d <= p95Centroid d /\
  p95Centroid d < Z.of_nat (length (centroids d)) /\
  (p5Centroid d = 0 -> length (centroids d) = 2%nat).
Proof.
  intros (Hn & Hh & _) Hlen. rewrite <- Hn in *.
  destruct (Z.leb_spec 3 (nCentroids d)); [|lia].
  destruct Hh as [-> ->]. rewrite !Z.quot_div_nonneg by lia.
  assert (1 <= nCentroids d * 3 / 8) by (apply Z.div_le_lower_bound; lia).
  assert (nCentroids d * 3 / 8 <= nCentroids d * 5 / 8)
    by (apply Z.div_le_mono; lia).
  assert (nCentroids d * 5 / 8 < nCentroids d - 1)
    by (apply Z.div_lt_upper_bound; lia).
  lia.
Qed.

Lemma sorted_step (d : TDigest Q) (i : Z) (c0 c1 : centroid Q) :
  well_formed d ->
  index (centroids d) i = Some c0 -> index (centroids d) (i + 1) = Some c1 ->
  (mean c0 <= mean c1)%Q.
Proof. intros (_ & _ & Hs & _) H0 H1. apply Qfle_true. eauto. Qed.

(** In exact arithmetic the locator always returns; what it returns is a
    bracketing index, or -1 in the degenerate state. *)
Lemma nearest_spec (d : TDigest Q) (val : Q) :
  well_formed d -> 2 <= Z.of_nat (length (centroids d)) ->
  exists i, nearest d val = Some i /\
            (brackets d val i \/ (i = -1 /\ degenerate d val)).
Proof.
  intros Hwf Hlen.
  destruct (hints_range d Hwf Hlen) as (H5 & H95 & H50).
  destruct (index_in_range (centroids d) (p5Centroid d)) as [c5 Hc5]; [lia|].
  destruct (index_in_range (centroids d) (p95Centroid d)) as [c95 Hc95]; [lia|].
  unfold nearest. rewrite Hc5. cbn [mbind option_bind].
  assert (Hwin : exists lo hi,
    (if flt (mean c5) val
     then index (centroids d) (p95Centroid d) ≫= fun c95 =>
          Some (p5Centroid d,
                if flt val (mean c95) then p95Centroid d + 1 else nCentroids d)
     else Some (0, p5Centroid d)) = Some (lo, hi) /\ window d val lo hi).
  { destruct (flt (mean c5) val) eqn:Hlt.
    - apply Qflt_true in Hlt. rewrite Hc95. cbn [mbind option_bind].
      eexists. eexists. split; [done|].
      pose proof Hwf as (Hn & _).
      split; [lia|]. split; [destruct (flt val (mean c95)); lia|].
      split; [destruct (flt val (mean c95)); lia|]. split.
      + intros _ c Hc. rewrite (index_unique _ _ _ _ Hc Hc5). lra.
      + destruct (flt val (mean c95)) eqn:Hlt95.
        * apply Qflt_true in Hlt95. intros c Hc.
          pose proof (sorted_step d _ _ _ Hwf Hc95 Hc). lra.
        * intros c [Hc _]%index_Some. lia.
    - apply Qflt_false in Hlt. exists 0, (p5Centroid d). split; [done|].
      split; [lia|]. split; [lia|].
      split; [destruct (Z.eq_dec (p5Centroid d) 0); [right|left]; auto with lia|].
      split; [lia|].
      intros c Hc. by rewrite (index_unique _ _ _ _ Hc Hc5). }
  destruct Hwin as (lo & hi & -> & Hw). cbn [mbind option_bind].
  destruct (bsearch_window d val (Z.to_nat (hi - lo)) lo hi Hw ltac:(lia))
    as [(i & -> & Hi)|(lo' & hi' & -> & Hw')].
  { exists i. split; [done|by left]. }
  destruct Hw' as (Hlo & Hhi & Hne & Hle & Hge).
  unfold slice_from.
  destruct (Z.ltb_spec (lo' + 1) 0); [lia|].
  destruct (Z.ltb_spec (Z.of_nat (length (centroids d))) (lo' + 1)); [lia|].
  cbn [orb mbind option_bind]. eexists. split; [done|].
  set (tl := drop (Z.to_nat (lo' + 1)) (centroids d)).
  assert (Htl : forall (k : nat) c, tl !! k = Some c ->
                  index (centroids d) (lo' + 1 + Z.of_nat k) = Some c).
  { intros k c Hk. unfold tl in Hk. rewrite lookup_drop in Hk.
    unfold index. destruct (Z.ltb_spec (lo' + 1 + Z.of_nat k) 0); [lia|].
    rewrite <- Hk. f_equal. lia. }
  assert (Htl' : forall j c, lo' + 1 <= j -> index (centroids d) j = Some c ->
                   tl !! Z.to_nat (j - lo' - 1) = Some c).
  { intros j c Hj [Hr Hc]%index_Some. unfold tl. rewrite lookup_drop.
    rewrite <- Hc. f_equal. lia. }
  destruct (scan_spec val tl lo' hi' 0)
    as [(-> & Hall)|(k & c & -> & Hk & Hlt & Hall)].
  - (* nothing greater to the right of [lo'] *)
    destruct Hne as [Hne|(-> & -> & Hlen2)].
    + left. split; [lia|]. split.
      * intros Hpos c Hc. destruct (Z.eq_dec (hi' - 1) lo') as [Heq|Hneq].
        -- rewrite Heq in Hc. apply Hle; [lia|done].
        -- apply Htl' in Hc; [|lia].
           by apply (Forall_lookup_1 _ _ _ _ Hall Hc).
      * by replace (hi' - 1 + 1) with hi' by lia.
    + right. split; [done|]. split; [done|].
      destruct (centroids d) as [|c0 [|c1 [|]]] eqn:Hcs; try done.
      assert (Hi0 : index (centroids d) 0 = Some c0) by (by rewrite Hcs).
      assert (Hi1 : index (centroids d) (0 + 1) = Some c1) by (by rewrite Hcs).
      pose proof (Hge _ Hi0). pose proof (sorted_step d _ _ _ Hwf Hi0 Hi1).
      assert (mean c1 <= val)%Q.
      { by apply (Forall_lookup_1 _ _ 0%nat _ Hall). }
      repeat constructor; lra.
  - (* the first greater mean is at [lo' + 1 + k] *)
    pose proof (Htl _ _ Hk) as Hc. pose proof Hc as [Hr _]%index_Some.
    replace (lo' + 0 + Z.of_nat k) with (lo' + Z.of_nat k) by lia.
    left. split; [lia|]. split.
    + intros Hpos c' Hc'. destruct k as [|k].
      * apply Hle; [lia|]. by replace (lo' + Z.of_nat 0) with lo' in Hc' by lia.
      * apply Htl' in Hc'; [|lia].
        replace (Z.to_nat (lo' + Z.of_nat (S k) - lo' - 1)) with k in Hc' by lia.
        assert (Hin : take (S k) tl !! k = Some c')
          by (by rewrite lookup_take_lt by lia).
        by apply (Forall_lookup_1 _ _ _ _ Hall Hin).
    + intros c' Hc'.
      replace (lo' + Z.of_nat k + 1) with (lo' + 1 + Z.of_nat k) in Hc' by lia.
      rewrite (index_unique _ _ _ _ Hc' Hc). lra.
Qed.

Lemma index_nat {A} (s : list A) (k : nat) : index s (Z.of_nat k) = s !! k.
Proof.
  unfold index. destruct (Z.ltb_spec (Z.of_nat k) 0); [lia|].
  by rewrite Nat2Z.id.
Qed.

Lemma le_at_outside (d : TDigest Q) (i : Z) (v : Q) :
  i < 0 -> le_at d i v.
Proof. intros Hi c [? _]%index_Some. lia. Qed.

Lemma ge_at_outside (d : TDigest Q) (i : Z) (v : Q) :
  Z.of_nat (length (centroids d)) <= i -> ge_at d i v.
Proof. intros Hi c [? _]%index_Some. lia. Qed.

Lemma sorted_means_ordered (d : TDigest Q) :
  sorted_means d <-> ordered (mean <$> centroids d).
Proof.
  split.
  - intros Hs i a b Ha Hb. rewrite list_lookup_fmap in Ha, Hb.
    destruct (centroids d !! i) as [c0|] eqn:H0; [|done].
    destruct (centroids d !! S i) as [c1|] eqn:H1; [|done].
    simpl in Ha, Hb. injection Ha as <-. injection Hb as <-.
    apply Qfle_true. apply (Hs (Z.of_nat i)).
    + by rewrite index_nat.
    + replace (Z.of_nat i + 1) with (Z.of_nat (S i)) by lia.
      by rewrite index_nat.
  - intros Ho i c0 c1 [Hi H0]%index_Some [_ H1]%index_Some.
    apply Qfle_true. apply (Ho (Z.to_nat i)).
    + by rewrite list_lookup_fmap, H0.
    + replace (S (Z.to_nat i)) with (Z.to_nat (i + 1)) by lia.
      by rewrite list_lookup_fmap, H1.
Qed.

Lemma allowed_safe (d : TDigest Q) (val : Q) (p : placement) :
  well_formed d -> allowed d val p -> safe d val p.
Proof.
  intros Hwf Hal. pose proof Hwf as (Hn & _). unfold allowed in Hal.
  destruct (Z.eqb_spec (nCentroids d) 0) as [H0|H0].
  { subst p. split; [lia|]. split; [by apply le_at_outside|].
    apply ge_at_outside. lia. }
  destruct (Z.eqb_spec (nCentroids d) 1) as [H1|H1].
  { destruct (index (centroids d) 0) as [c|] eqn:Hc; [|done].
    assert (Hc' : forall c', index (centroids d) 0 = Some c' -> c' = c)
      by congruence.
    destruct (flt (count c) (compression d)).
    - subst p. exists c. split; [done|].
      destruct (Qlt_le_dec val (mean c)).
      + right. split; [lra|]. by apply le_at_outside.
      + left. split; [done|]. apply ge_at_outside. lia.
    - destruct (flt val (mean c)) eqn:Hlt; subst p.
      + apply Qflt_true in Hlt. split; [lia|].
        split; [by apply le_at_outside|].
        intros c' ->%Hc'. lra.
      + apply Qflt_false in Hlt. split; [lia|]. split.
        * intros c' ->%Hc'. done.
        * apply ge_at_outside. lia. }
  destruct (nearest d val) as [i|] eqn:Hnear; [|done].
  destruct (index (centroids d) i) as [left|] eqn:Hleft; [|done].
  pose proof Hleft as [Hi _]%index_Some.
  assert (Hleft' : forall c', index (centroids d) i = Some c' -> c' = left)
    by congruence.
  destruct (nearest_spec d val Hwf ltac:(lia)) as (i' & Hi' & Hbr).
  rewrite Hnear in Hi'. injection Hi' as <-.
  destruct Hbr as [(_ & Hle & Hge)|[-> _]]; [|lia].
  destruct (flt val (mean left)) eqn:Hlt.
  { apply Qflt_true in Hlt.
    assert (i = 0) as ->.
    { destruct (Z.eq_dec i 0); [done|].
      pose proof (Hle ltac:(lia) _ Hleft). lra. }
    destruct Hal as [->| ->].
    - exists left. split; [done|]. right. split; [lra|].
      by apply le_at_outside.
    - split; [lia|]. split; [by apply le_at_outside|].
      intros c' ->%Hleft'. lra. }
  apply Qflt_false in Hlt.
  destruct (Z.eqb_spec i (Z.of_nat (length (centroids d)) - 1)) as [Hlast|Hlast].
  { destruct Hal as [->| ->].
    - exists left. split; [done|]. left. split; [done|].
      apply ge_at_outside. lia.
    - split; [lia|]. split.
      + rewrite <- Hlast. by intros c' ->%Hleft'.
      + by apply ge_at_outside. }
  destruct Hal as [->|[->| ->]].
  - exists left. split; [done|]. left. by split.
  - destruct (index_in_range (centroids d) (i + 1)) as [right Hright]; [lia|].
    exists right. split; [done|]. right. split; [by apply Hge|].
    replace (i + 1 - 1) with i by lia. by intros c' ->%Hleft'.
  - split; [lia|]. split; [|done].
    replace (i + 1 - 1) with i by lia. by intros c' ->%Hleft'.
Qed.

Lemma means_summaries (d : TDigest Q) :
  mean <$> centroids d = fst <$> summaries d.
Proof. unfold summaries. by rewrite <- list_fmap_compose. Qed.

Lemma summaries_length (d : TDigest Q) :
  length (summaries d) = length (centroids d).
Proof. unfold summaries. by rewrite length_fmap. Qed.

Lemma means_lookup (d : TDigest Q) (k : nat) (a : Q) :
  (mean <$> centroids d) !! k = Some a ->
  exists c, index (centroids d) (Z.of_nat k) = Some c /\ mean c = a.
Proof.
  rewrite list_lookup_fmap, index_nat.
  destruct (centroids d !! k) as [c|]; [|done].
  intros [= <-]. by exists c.
Qed.

Lemma counts_ok (d : TDigest Q) :
  Forall (fun c => fle (of_int 1) (count c) = true) (centroids d) <->
  Forall (fun k : Q => (1 <= k)%Q) (snd <$> summaries d).
Proof.
  rewrite <- counts_summaries, Forall_fmap. apply Forall_proper; [|done].
  intros c. simpl. apply Qfle_true.
Qed.

Lemma placed_well_formed (d d' : TDigest Q) (val : Q) (p : placement) :
  well_formed d -> safe d val p -> placed d d' val p -> well_formed d'.
Proof.
  intros Hwf Hsafe Hplaced. pose proof Hwf as (Hn & Hh & Hs & Hc).
  apply sorted_means_ordered in Hs. apply counts_ok in Hc.
  destruct p as [i|i].
  - destruct Hplaced as (_ & _ & (c & Hci & Hsum) & (Hn' & H5 & H95)).
    destruct Hsafe as (c' & Hci' & Hcase).
    assert (c' = c) as -> by congruence. clear Hci'.
    pose proof Hci as [Hi Hlk]%index_Some.
    assert (Hc1 : (1 <= count c)%Q).
    { apply (Forall_lookup_1 _ _ (Z.to_nat i) _ Hc).
      by rewrite <- counts_summaries, list_lookup_fmap, Hlk. }
    assert (Hlen : length (centroids d') = length (centroids d)).
    { rewrite <- !summaries_length, Hsum. apply length_store. }
    split; [lia|]. split; [by rewrite Hn', H5, H95|]. split.
    + apply sorted_means_ordered. rewrite means_summaries, Hsum, fmap_store.
      rewrite <- means_summaries. unfold store.
      change (summary (inc c val)).1 with (mean (inc c val)).
      apply ordered_update; [done| |].
      * intros a Hpos Ha. apply means_lookup in Ha as (c0 & Hc0 & <-).
        replace (Z.of_nat (Z.to_nat i - 1)) with (i - 1) in Hc0 by lia.
        assert (mean c0 <= mean c)%Q.
        { apply (sorted_step d (i - 1)); [done|done|].
          by replace (i - 1 + 1) with i by lia. }
        destruct Hcase as [[Hup _]|[Hdown Hle]].
        -- destruct (inc_mean_up c val Hc1 Hup). lra.
        -- destruct (inc_mean_down c val Hc1 Hdown).
           pose proof (Hle _ Hc0). lra.
      * intros b Hb. apply means_lookup in Hb as (c1 & Hc1' & <-).
        replace (Z.of_nat (S (Z.to_nat i))) with (i + 1) in Hc1' by lia.
        assert (mean c <= mean c1)%Q by (by apply (sorted_step d i)).
        destruct Hcase as [[Hup Hge]|[Hdown _]].
        -- destruct (inc_mean_up c val Hc1 Hup).
           pose proof (Hge _ Hc1'). lra.
        -- destruct (inc_mean_down c val Hc1 Hdown). lra.
    + apply counts_ok. rewrite Hsum, fmap_store. unfold store.
      apply Forall_insert; [done|].
      cbn [summary inc snd count fadd of_int rational]. unfold inject_Z. lra.
  - destruct Hplaced as (_ & _ & (Hi & Hsum) & (Hn' & Hmoved)).
    destruct Hsafe as (_ & Hle & Hge).
    assert (Hlen : length (centroids d') = S (length (centroids d))).
    { rewrite <- !summaries_length, Hsum, length_app, length_take. simpl.
      rewrite length_drop, summaries_length. lia. }
    split; [lia|]. split.
    { rewrite Hn'. destruct (Z.leb_spec 3 (nCentroids d + 1)); [done|].
      destruct (Z.leb_spec 3 (nCentroids d)); [lia|].
      destruct Hmoved as [-> ->]. done. }
    split.
    + apply sorted_means_ordered.
      rewrite means_summaries, Hsum, fmap_app, fmap_cons, fmap_take, fmap_drop.
      rewrite <- means_summaries. simpl.
      apply ordered_insert; [done|rewrite length_fmap; lia| |].
      * intros a Hpos Ha. apply means_lookup in Ha as (c0 & Hc0 & <-).
        replace (Z.of_nat (Z.to_nat i - 1)) with (i - 1) in Hc0 by lia.
        by apply Hle.
      * intros b Hb. apply means_lookup in Hb as (c1 & Hc1 & <-).
        replace (Z.of_nat (Z.to_nat i)) with i in Hc1 by lia.
        by apply Hge.
    + apply counts_ok.
      rewrite Hsum, fmap_app, fmap_cons, fmap_take, fmap_drop.
      apply Forall_app. split; [by apply Forall_take|].
      constructor; [|by apply Forall_drop].
      cbn [snd of_int rational]. unfold inject_Z. lra.
Qed.

Lemma well_formed_New (c : Q) : well_formed (New c).
Proof.
  split; [done|]. split; [done|]. split; [|constructor].
  intros i c0 c1 [? _]%index_Some. simpl in *. lia.
Qed.

Lemma add_well_formed (d d' : TDigest Q) (val : Q) :
  well_formed d -> add d val = Some d' -> well_formed d'.
Proof.
  intros Hwf (p & Hal & Hpl)%add_placement.
  eapply placed_well_formed; eauto using allowed_safe.
Qed.

Lemma Add_well_formed (d d' : TDigest Q) (val : Q) :
  well_formed d -> Add d val = Some d' -> well_formed d'.
Proof.
  intros Hwf HAdd. unfold Add in HAdd.
  destruct (add d val) as [d1|] eqn:Hadd; [|done].
  injection HAdd as <-. by apply (add_well_formed _ _ _ Hwf) in Hadd.
Qed.

(** In exact arithmetic every digest built by [Add] calls is well formed;
    in particular its store is ordered. *)
Theorem exact_reachable_well_formed (c : Q) (vals : list Q) (d : TDigest Q) :
  AddAll (New c) vals = Some d -> well_formed d.
Proof.
  pose proof (well_formed_New c) as Hwf. revert Hwf.
  generalize (New c). induction vals as [|v vals IH]; intros d0 Hwf; simpl.
  - by intros [= <-].
  - destruct (Add d0 v) as [d1|] eqn:HAdd; [simpl|done].
    apply IH. by eapply Add_well_formed.
Qed.

Lemma nearest_degenerate (d : TDigest Q) (val : Q) :
  well_formed d -> degenerate d val -> nearest d val = Some (-1).
Proof.
  intros (Hn & Hh & _) [Hlen Hall].
  destruct (centroids d) as [|c0 [|c1 [|]]] eqn:Hcs; try done.
  apply Forall_cons in Hall as [H0 Hall]. apply Forall_cons in Hall as [H1 _].
  simpl in Hn. rewrite Hn in Hh. simpl in Hh. destruct Hh as [H5 H95].
  assert (Hlt0 : flt (mean c0) val = false) by (apply Qflt_false; lra).
  assert (Hlt1 : flt val (mean c1) = false) by (apply Qflt_false; lra).
  unfold nearest. rewrite Hcs, H5.
  change (index [c0; c1] 0) with (Some c0). cbn [mbind option_bind].
  rewrite Hlt0. cbn [mbind option_bind].
  change (bsearch (Z.to_nat (0 - 0)) [c0; c1] val 0 0)
    with (Ok (Fallthrough 0 0) : outcome loop_exit).
  cbv iota beta. change (slice_from [c0; c1] (0 + 1)) with (Some [c1]).
  cbn [mbind option_bind scan]. by rewrite Hlt1.
Qed.

(** In exact arithmetic [Add] panics in the degenerate state and in no
    other. *)
Theorem exact_Add_panics_iff (d : TDigest Q) (val : Q) :
  well_formed d -> (Add d val = None <-> degenerate d val).
Proof.
  intros Hwf. pose proof Hwf as (Hn & _). split.
  - intros HAdd.
    assert (Hadd : add d val = None).
    { unfold Add in HAdd. by destruct (add d val). }
    destruct (Z_lt_le_dec (nCentroids d) 2) as [Hsmall|Hbig].
    { destruct (add_returns d val Hn) as [d' Hd']; [lia|congruence]. }
    destruct (nearest_spec d val Hwf ltac:(lia)) as (i & Hi & [Hbr|[-> Hdeg]]);
      [|done].
    destruct (add_returns d val Hn) as [d' Hd']; [|congruence].
    intros _. exists i. split; [done|]. by destruct Hbr.
  - intros Hdeg. pose proof (nearest_degenerate d val Hwf Hdeg) as Hnear.
    destruct Hdeg as [Hlen _].
    unfold Add, add. rewrite Hn, Hlen.
    change (Z.of_nat 2 =? 0) with false. change (Z.of_nat 2 =? 1) with false.
    unfold addSteady. by rewrite Hnear.
Qed.

(** [<] on binary64 is asymmetric. *)
Lemma SFltb_asym (x y : spec_float) : SFltb x y = true -> SFltb y x = false.
Proof.
  unfold SFltb, SFcompare.
  destruct x as [sx|sx| |sx mx ex], y as [sy|sy| |sy my ey];
    try destruct sx; try destruct sy; try discriminate; try reflexivity.
  all: rewrite (Z.compare_antisym ex ey);
    destruct (ex ?= ey) eqn:E; simpl; try discriminate; try reflexivity;
    pose proof (Pos.compare_cont_antisym mx my Eq) as HA; simpl in HA;
    rewrite <- HA;
    destruct (Pos.compare_cont Eq mx my); simpl;
    try discriminate; try reflexivity.
Qed.

(** * The claims, on the binary64 program *)

(** C1 (refuted).  On the digest built by [New(1); Add(1); Add(2)],
    [Quantile(0.75)] is 3 and [Quantile(1)] is 2.5: the estimate decreases
    while its argument increases.  Rounding plays no part: the results are
    the same in exact arithmetic. *)
Theorem C1_Quantile_not_monotone :
  (exists d,
      AddAll (New (of_int 1)) [of_int 1; of_int 2] = Some d /\
      fle (ldexp 3 (-2)) (of_int 1) = true /\
      Quantile d (ldexp 3 (-2)) = Some (of_int 3) /\
      Quantile d (of_int 1) = Some (ldexp 5 (-1)) /\
      fle (of_int 3) (ldexp 5 (-1)) = false) /\
  (exists (d : TDigest Q) (r1 r2 : Q),
      AddAll (New 1%Q) [1%Q; 2%Q] = Some d /\
      Quantile d (3 # 4)%Q = Some r1 /\ (r1 == 3)%Q /\
      Quantile d 1%Q = Some r2 /\ (r2 == 5 # 2)%Q).
Proof.
  split; [eexists|do 3 eexists]; repeat split; vm_compute; reflexivity.
Qed.

(** C2 (refuted).  After [New(1); Add(5); Add(5)] both centroids have mean 5;
    for a third 5 the locator returns -1, which is no index of the store,
    and [Add] panics; in exact arithmetic as well. *)
Theorem C2_Add_panics_on_equal_values :
  (exists d,
      AddAll (New (of_int 1)) [of_int 5; of_int 5] = Some d /\
      nearest d (of_int 5) = Some (-1) /\
      index (centroids d) (-1) = None /\
      Add d (of_int 5) = None /\
      AddAll (New (of_int 1)) [of_int 5; of_int 5; of_int 5] = None) /\
  AddAll (New 1%Q) [5%Q; 5%Q; 5%Q] = None.
Proof. split; [eexists; repeat split|]; vm_compute; reflexivity. Qed.

(** C3 (refuted).  [New(1)] followed by [Add] of [-1.5 * 2^1023],
    [1.5 * 2^1023], [2^1023] and [2^1023], all finite, leaves the means
    [+Inf; 1.25 * 2^1023]: in the last call [val - c.mean] overflows in
    [inc], and the left centroid jumps over the right one. *)
Theorem C3_overflow_breaks_order :
  exists d c0 c1,
    AddAll (New (of_int 1))
           [ldexp (-3) 1022; ldexp 3 1022; ldexp 1 1023; ldexp 1 1023] = Some d /\
    centroids d = [c0; c1] /\
    mean c0 = S754_infinity false /\
    mean c1 = ldexp 5 1021 /\
    fle (mean c0) (mean c1) = false /\
    ~ sorted_means d.
Proof.
  eexists. eexists. eexists.
  split; [vm_compute; reflexivity|].
  split; [reflexivity|].
  repeat split; try (vm_compute; reflexivity).
  intros Hs. specialize (Hs 0 _ _ eq_refl eq_refl). vm_compute in Hs. discriminate.
Qed.

(** C4 (refuted as stated).  [New(2^60)] followed by [2^53 + 1] calls
    [Add(0)]: every call returns, and in the end the one centroid and the
    digest both count [2^53], not [2^53 + 1], because [2^53 + 1] is not a
    [float64] and [count++] rounds back to [2^53]. *)
Theorem C4_counts_saturate :
  exists vals d c,
    Z.of_nat (length vals) = 2 ^ 53 + 1 /\
    AddAll (New (ldexp 1 60)) vals = Some d /\
    centroids d = [c] /\
    to_int (count c) = Some (2 ^ 53) /\
    to_int (d_count d) = Some (2 ^ 53).
Proof.
  assert (Hn : Z.of_nat (Z.to_nat (2 ^ 53 - 1)) = 2 ^ 53 - 1)
    by (apply Z2Nat.id; lia).
  exists (of_int 0 :: replicate (Z.to_nat (2 ^ 53 - 1)) (of_int 0) ++ [of_int 0]).
  exists (lone (2 ^ 53)). eexists.
  split; [rewrite length_saturating, Hn; lia|].
  split; [exact (AddAll_saturates _ Hn)|].
  split; [reflexivity|]. split; reflexivity.
Qed.

(** C4 (amended).  After [N <= 2^53] calls of [Add] that all return, the
    centroid counts denote integers that add up to [N], the digest's [count]
    denotes [N], and the float sum of the centroid counts is the digest's
    [count]. *)
Theorem C4_weight_conservation
        (c : spec_float) (vals : list spec_float) (d : TDigest spec_float) :
  AddAll (New c) vals = Some d ->
  Z.of_nat (length vals) <= 2 ^ 53 ->
  exists ks,
    Forall2 (fun cen k => to_int (count cen) = Some k) (centroids d) ks /\
    total ks = Z.of_nat (length vals) /\
    to_int (d_count d) = Some (Z.of_nat (length vals)) /\
    sum_counts (centroids d) = d_count d.
Proof.
  intros Hrun HN.
  destruct (AddAll_integer_weights (2 ^ 53) fadd_of_int vals _ _ [] 0
              (New_integer_weights c) ltac:(lia) ltac:(lia) Hrun)
    as (ks & [Hks Hpos] & Htot & Hcnt).
  rewrite Z.add_0_l in Htot, Hcnt.
  exists ks. split; [|split; [done|split]].
  - apply weights_to_int; (done || lia).
  - rewrite Hcnt. apply to_int_of_int. lia.
  - rewrite (sum_counts_of_int (2 ^ 53) fadd_of_int _ ks) by (done || lia).
    congruence.
Qed.

Lemma C4_weight_conservation_witness :
  exists d ks,
    AddAll (New (of_int 1)) [of_int 1; of_int 2; of_int 3] = Some d /\
    Forall2 (fun cen k => to_int (count cen) = Some k) (centroids d) ks /\
    total ks = 3 /\
    to_int (d_count d) = Some 3 /\
    sum_counts (centroids d) = d_count d.
Proof.
  assert (Hrun : { d | AddAll (New (of_int 1)) [of_int 1; of_int 2; of_int 3]
                       = Some d }) by (vm_compute; eexists; reflexivity).
  destruct Hrun as [d Hrun].
  destruct (C4_weight_conservation _ _ d Hrun) as (ks & H);
    [vm_compute; discriminate|].
  exists d, ks. split; [exact Hrun|exact H].
Defined.

(** C5.  With at least two centroids and the value strictly between the
    means of the pair [left], [right] that the locator brackets it with:
    when both have room the value goes to [left] if [appendLower] is set and
    to [right] otherwise, and [appendLower] is flipped; when one has room it
    goes there; when neither has, a centroid of weight 1 and mean [val] is
    inserted between the two.  The means and weights of the other centroids
    stay as they are. *)
Theorem C5_between_decision
        (d : TDigest spec_float) (val : spec_float) (leftIdx : Z)
        (left right : centroid spec_float)
        (d1 d2 : TDigest spec_float) (leftHasRoom rightHasRoom : bool) :
  2 <= nCentroids d ->
  nearest d val = Some leftIdx ->
  index (centroids d) leftIdx = Some left ->
  index (centroids d) (leftIdx + 1) = Some right ->
  flt (mean left) val = true ->
  flt val (mean right) = true ->
  roomAt d leftIdx = Some (d1, leftHasRoom) ->
  roomAt d (leftIdx + 1) = Some (d2, rightHasRoom) ->
  exists d', add d val = Some d' /\
    match leftHasRoom, rightHasRoom with
    | true, true =>
      absorbed d d' (if appendLower d then leftIdx else leftIdx + 1) val /\
      appendLower d' = negb (appendLower d)
    | true, false =>
      absorbed d d' leftIdx val /\ appendLower d' = appendLower d
    | false, true =>
      absorbed d d' (leftIdx + 1) val /\ appendLower d' = appendLower d
    | false, false =>
      inserted d d' (leftIdx + 1) val /\ appendLower d' = appendLower d
    end.
Proof.
  intros Hn Hnear Hleft Hright Hlv Hvr Hl Hr.
  apply (add_between d val leftIdx left right d1 leftHasRoom d2 rightHasRoom);
    try done; try lia.
  by apply SFltb_asym.
Qed.

Lemma C5_between_decision_witness :
  let d := default (New (of_int 1))
                   (AddAll (New (of_int 1)) [of_int 1; of_int 2]) in
  exists d', add d (ldexp 3 (-1)) = Some d' /\
             absorbed d d' 1 (ldexp 3 (-1)) /\ appendLower d' = true.
Proof.
  intros d.
  refine (C5_between_decision d (ldexp 3 (-1)) 0 _ _ _ _ true true
            _ _ _ _ _ _ _ _);
    try (vm_compute; reflexivity).
  vm_compute. discriminate.
Defined.

(** C6 (refuted as stated).  After [New(0.5)] and [Add] of 1, 2, ..., 7 there
    are seven centroids of weight 1.  [Add(5.5)] asks [hasRoom] about the
    centroid at index 4, past the midpoint; accumulating from the top it
    gets the position [1 - 2.5/7], which rounds to the float just below the
    one that [4.5/7] rounds to, and the capacity it stores is not the one
    the formula gives at [4.5/7]. *)
Theorem C6_rounding_differs :
  exists d d' c q cap,
    AddAll (New (ldexp 1 (-1)))
           [of_int 1; of_int 2; of_int 3; of_int 4; of_int 5; of_int 6; of_int 7]
    = Some d /\
    Add d (ldexp 11 (-1)) = Some d' /\
    index (centroids d') 4 = Some c /\
    c_nCentroids c = 7 /\
    spec_position d 4 = Some q /\
    quantileOf d 4 <> Some q /\
    spec_capacity d 4 = Some cap /\
    maxCount c <> cap.
Proof.
  do 5 eexists.
  split; [vm_compute; reflexivity|].
  split; [vm_compute; reflexivity|].
  split; [vm_compute; reflexivity|].
  split; [reflexivity|].
  split; [vm_compute; reflexivity|].
  split; [vm_compute; discriminate|].
  split; [vm_compute; reflexivity|].
  vm_compute. discriminate.
Qed.

(** C6 (amended).  [hasRoom] stores
    [4 * compression * q * (1 - q) * nCentroids] for the position [q] that
    [quantileOf] returns.  Up to the midpoint [q] is the position of the
    specification; past it, [q] is 1 minus (half the centroid's count plus
    the counts after it) over the digest's count.  In exact arithmetic, on a
    digest built by [Add] calls (at any point of the next call, where only
    cache fields have changed), the two agree and the stored capacity is the
    one of the specification. *)
Theorem C6_capacity :
  (forall (d : TDigest spec_float) idx d' b,
      hasRoom d idx = Some (d', b) ->
      exists c c' q,
        index (centroids d) idx = Some c /\
        index (centroids d') idx = Some c' /\
        quantileOf d idx = Some q /\
        maxCount c' = capacity d q /\
        (idx <= Z.quot (nCentroids d) 2 -> spec_position d idx = Some q) /\
        (Z.quot (nCentroids d) 2 < idx ->
         q = fsub (of_int 1)
                  (fdiv (fadd (fdiv (count c) (of_int 2))
                              (sum_counts (drop (Z.to_nat (idx + 1))
                                                (centroids d))))
                        (d_count d)))) /\
  (forall (c : Q) (vals : list Q) (d0 d : TDigest Q) idx d' b,
      AddAll (New c) vals = Some d0 ->
      cache_equiv d0 d ->
      hasRoom d idx = Some (d', b) ->
      exists c' cap,
        index (centroids d') idx = Some c' /\
        spec_capacity d idx = Some cap /\
        (maxCount c' == cap)%Q).
Proof.
  split.
  - intros d idx d' b Hr.
    destruct (hasRoom_capacity _ _ _ _ Hr)
      as (c & c' & q & ? & ? & ? & ? & _ & _ & ? & ?).
    by exists c, c', q.
  - intros c vals d0 d idx d' b Hrun Heq Hr.
    destruct (reachable_integer_weights _ _ _ Hrun) as (ks & Hks0).
    pose proof (integer_weights_cache_equiv _ _ _ _ Heq Hks0) as Hks.
    destruct (hasRoom_capacity _ _ _ _ Hr)
      as (c0 & c' & q & _ & Hc' & Hq & Hmax & _).
    destruct (quantileOf_spec_position _ _ _ _ _ Hks Hq) as (q' & Hq' & Hqq).
    exists c', (capacity d q'). split; [done|].
    split; [unfold spec_capacity; by rewrite Hq'|].
    rewrite Hmax. unfold capacity. cbn [fmul fsub of_int rational].
    by rewrite Hqq.
Qed.

Lemma C6_capacity_witness :
  (let d := default (New (of_int 1))
              (AddAll (New (ldexp 1 (-1))) [of_int 1; of_int 2; of_int 3]) in
   exists d' b c c' q,
     hasRoom d 1 = Some (d', b) /\
     index (centroids d) 1 = Some c /\
     index (centroids d') 1 = Some c' /\
     quantileOf d 1 = Some q /\
     maxCount c' = capacity d q /\
     spec_position d 1 = Some q) /\
  (let d := default (New 1%Q) (AddAll (New (1 # 2)%Q) [1%Q; 2%Q; 3%Q]) in
   exists d' b c' cap,
     hasRoom d 2 = Some (d', b) /\
     index (centroids d') 2 = Some c' /\
     spec_capacity d 2 = Some cap /\ (maxCount c' == cap)%Q).
Proof.
  split.
  - intros d.
    assert (Hr : { r | hasRoom d 1 = Some r })
      by (vm_compute; eexists; reflexivity).
    destruct Hr as [[d' b] Hr].
    destruct (proj1 C6_capacity d 1 d' b Hr)
      as (c & c' & q & Hc & Hc' & Hq & Hmax & Hlow & _).
    exists d', b, c, c', q. repeat (split; [assumption|]).
    apply Hlow. vm_compute. discriminate.
  - intros d.
    assert (Hr : { r | hasRoom d 2 = Some r })
      by (vm_compute; eexists; reflexivity).
    destruct Hr as [[d' b] Hr].
    destruct (proj2 C6_capacity (1 # 2)%Q [1%Q; 2%Q; 3%Q] d d 2 d' b eq_refl
                    (cache_equiv_refl d) Hr)
      as (c' & cap & Hc' & Hcap & Heq).
    by exists d', b, c', cap.
Defined.

(** C7.  [New(c); Add(v)] returns, and [Quantile(q)] on the result is [v],
    for every compression [c], value [v] and argument [q]. *)
Theorem C7_single_value (c v q : spec_float) :
  exists d, Add (New c) v = Some d /\ Quantile d q = Some v.
Proof. eexists. split; reflexivity. Qed.

(** C8.  [Quantile] on a fresh digest returns a value, and that value is a
    NaN. *)
Theorem C8_empty_is_NaN (c q : spec_float) :
  exists r, Quantile (New c) q = Some r /\ IsNaN r = true.
Proof. exists fnan. split; reflexivity. Qed.

(** C9.  On every digest [Quantile] returns for every argument; an argument
    below 0 gives the result for 0 and an argument above 1 the result for 1. *)
Theorem C9_Quantile_clamps (d : TDigest spec_float) (q : spec_float) :
  is_Some (Quantile d q) /\
  (flt q (of_int 0) = true -> Quantile d q = Quantile d (of_int 0)) /\
  (fgt q (of_int 1) = true -> Quantile d q = Quantile d (of_int 1)).
Proof.
  split; [apply Quantile_total|]. split; intros Hq; unfold Quantile; rewrite Hq.
  - reflexivity.
  - assert (flt q (of_int 0) = false) as ->; [|reflexivity].
    revert Hq. unfold fgt. cbn.
    destruct q as [s|s| |s m e]; try destruct s; try discriminate; reflexivity.
Qed.

Lemma C9_Quantile_clamps_witness :
  let d := default (New (of_int 1))
                   (AddAll (New (of_int 1)) [of_int 1; of_int 2]) in
  Quantile d (of_int (-1)) = Quantile d (of_int 0) /\
  Quantile d (of_int 2) = Quantile d (of_int 1).
Proof.
  intros d. split.
  - apply (C9_Quantile_clamps d (of_int (-1))). reflexivity.
  - apply (C9_Quantile_clamps d (of_int 2)). reflexivity.
Defined.

(** C10.  After [New(1); Add(1); Add(2)] there are two centroids and
    [Quantile(0)] is 0.5, strictly below every centroid mean. *)
Theorem C10_Quantile_extrapolates :
  exists d r,
    AddAll (New (of_int 1)) [of_int 1; of_int 2] = Some d /\
    length (centroids d) = 2%nat /\
    Quantile d (of_int 0) = Some r /\
    Forall (fun c => flt r (mean c) = true) (centroids d).
Proof.
  eexists. eexists. split; [vm_compute; reflexivity|].
  split; [reflexivity|]. split; [vm_compute; reflexivity|].
  repeat constructor.
Qed.
